(** * Client location triangulation (triangulation.py)

    A shallow embedding of [WastelandTriangulator] from [triangulation.py]:
    the path-loss model [rssi_to_distance], the two-anchor and multi-anchor
    solvers, [trilaterate] and [track_clients].

    Python floats are modelled as real numbers (no rounding, no overflow).
    Python exceptions that the code can raise are modelled by the [Result]
    monad below, and the [try ... except (ValueError, ZeroDivisionError)]
    blocks of the solvers catch exactly those two exceptions. *)

From Stdlib Require Import Reals Lra Lia String List Bool.
Import ListNotations.
Open Scope R_scope.

(** ** Python exceptions *)

Inductive PyExc :=
| ValueError
| ZeroDivisionError
| IndexError
| StatisticsError.

Inductive Result (A : Type) : Type :=
| Ok (a : A)
| Raise (e : PyExc).

Arguments Ok {A} a.
Arguments Raise {A} e.

Definition bind {A B : Type} (m : Result A) (k : A -> Result B) : Result B :=
  match m with
  | Ok a => k a
  | Raise e => Raise e
  end.

Notation "'let*' x ':=' m 'in' k" := (bind m (fun x => k))
  (at level 200, x name, m at level 100, k at level 200).

(** [try: body except (ValueError, ZeroDivisionError): handler] *)
Definition try_except_value_zerodiv {A : Type} (body : Result A) (handler : Result A)
  : Result A :=
  match body with
  | Raise ValueError | Raise ZeroDivisionError => handler
  | _ => body
  end.

(** ** Python numeric primitives over the reals *)

(** [math.sqrt]: raises ValueError on a negative argument. *)
Definition py_sqrt (x : R) : Result R :=
  if Rlt_dec x 0 then Raise ValueError else Ok (sqrt x).

(** [x / y]: raises ZeroDivisionError when [y == 0]. *)
Definition py_div (x y : R) : Result R :=
  if Req_EM_T y 0 then Raise ZeroDivisionError else Ok (x / y).

(** [math.log10]: raises ValueError on a non-positive argument. *)
Definition py_log10 (x : R) : Result R :=
  if Rle_dec x 0 then Raise ValueError else Ok (ln x / ln 10).

(** [sum(iterable)]: left fold from 0. *)
Definition py_sum (l : list R) : R := fold_left Rplus l 0.

(** [max(a, b)] on two numbers. *)
Definition py_max2 (a b : R) : R := if Rlt_dec a b then b else a.

(** [min(a, b)] on two numbers. *)
Definition py_min2 (a b : R) : R := if Rlt_dec b a then b else a.

(** [max(iterable)]: ValueError on an empty iterable; otherwise the running
    maximum, replaced by each later item that is strictly greater. *)
Definition py_max (l : list R) : Result R :=
  match l with
  | [] => Raise ValueError
  | x :: xs => Ok (fold_left py_max2 xs x)
  end.

(** [statistics.mean]: StatisticsError on empty data. *)
Definition py_mean (l : list R) : Result R :=
  match l with
  | [] => Raise StatisticsError
  | _ => Ok (py_sum l / INR (length l))
  end.

Fixpoint mapM {A B : Type} (f : A -> Result B) (l : list A) : Result (list B) :=
  match l with
  | [] => Ok []
  | a :: l' => let* b := f a in let* bs := mapM f l' in Ok (b :: bs)
  end.

(** ** Python dicts as association lists in insertion order *)

Fixpoint dict_get {V : Type} (k : string) (d : list (string * V)) : option V :=
  match d with
  | [] => None
  | (k', v) :: d' => if String.eqb k k' then Some v else dict_get k d'
  end.

(** [d[k] = v]: an existing key keeps its position, a new key goes last. *)
Fixpoint dict_set {V : Type} (k : string) (v : V) (d : list (string * V))
  : list (string * V) :=
  match d with
  | [] => [(k, v)]
  | (k', v') :: d' =>
      if String.eqb k k' then (k, v) :: d' else (k', v') :: dict_set k v d'
  end.

(** ** Data model *)

Record APCoordinates := mkAP {
  ap_x : R;
  ap_y : R;
  ap_z : R;
  ap_label : string
}.

Record ClientSignal := mkSignal {
  mac_address : string;
  ap_name : string;
  rssi : R;
  timestamp : R;
  frequency : R
}.

Record LocationEstimate := mkLoc {
  loc_x : R;
  loc_y : R;
  confidence : R;
  num_aps : nat;
  error_radius : R
}.

Record WastelandTriangulator := mkTri {
  ap_coordinates : list (string * APCoordinates);
  environment_type : string;
  reference_distance : R;
  reference_rssi : R;
  path_loss_exponent : R;
  shadow_std : R
}.

(** [WastelandTriangulator.__init__] *)
Definition new_triangulator (env : string) : WastelandTriangulator :=
  if String.eqb env "indoor" then mkTri [] env 1.0 (-30) 2.5 4.0
  else if String.eqb env "outdoor" then mkTri [] env 1.0 (-30) 3.5 8.0
  else mkTri [] env 1.0 (-35) 3.0 6.0.

(** [add_ap] *)
Definition add_ap (t : WastelandTriangulator) (name : string) (x y z : R)
  : WastelandTriangulator :=
  mkTri (dict_set name (mkAP x y z name) (ap_coordinates t)) (environment_type t)
        (reference_distance t) (reference_rssi t) (path_loss_exponent t) (shadow_std t).

(** ** Path loss model *)

Definition rssi_to_distance (t : WastelandTriangulator) (rssi frequency : R) : Result R :=
  if Rlt_dec (reference_rssi t) rssi then Ok 0.5
  else
    let* freq_correction :=
      if Req_EM_T frequency 2.4 then Ok 0
      else let* l := py_log10 (frequency / 2.4) in Ok (20 * l) in
    let adjusted_rssi := rssi - freq_correction in
    let db_loss := reference_rssi t - adjusted_rssi in
    let distance :=
      reference_distance t * Rpower 10 (db_loss / (10 * path_loss_exponent t)) in
    Ok (py_max2 1.0 (py_min2 100.0 distance)).

(** ** Two-anchor solve *)

(** The [try] block of [_trilaterate_2ap]: circle intersection by the law of
    cosines; returns [(x, y, confidence)]. *)
Definition trilaterate_2ap_try (ap1 : APCoordinates) (d1 : R)
  (ap2 : APCoordinates) (d2 : R) (dx dy d_ap : R) : Result (R * R * R) :=
  let* a := py_div (d1 ^ 2 - d2 ^ 2 + d_ap ^ 2) (2 * d_ap) in
  let h_sq := d1 ^ 2 - a ^ 2 in
  if Rlt_dec h_sq 0 then
    let* qx := py_div (a * dx) d_ap in
    let* qy := py_div (a * dy) d_ap in
    Ok (ap_x ap1 + qx, ap_y ap1 + qy, 0.3)
  else
    let* h := py_sqrt h_sq in
    let* qx := py_div (a * dx) d_ap in
    let* qy := py_div (a * dy) d_ap in
    let px := ap_x ap1 + qx in
    let py := ap_y ap1 + qy in
    let* ox1 := py_div (h * - dy) d_ap in
    let* oy1 := py_div (h * dx) d_ap in
    let* ox2 := py_div (h * - dy) d_ap in
    let* oy2 := py_div (h * dx) d_ap in
    let x1 := px + ox1 in
    let y1 := py + oy1 in
    let x2 := px - ox2 in
    let y2 := py - oy2 in
    Ok ((x1 + x2) / 2, (y1 + y2) / 2, 0.7).

(** [_trilaterate_2ap]; the tuple unpacking of [ap_distances[:2]] raises
    ValueError when fewer than two pairs are given. *)
Definition trilaterate_2ap (ap_distances : list (APCoordinates * R))
  : Result LocationEstimate :=
  match firstn 2 ap_distances with
  | [(ap1, d1); (ap2, d2)] =>
      let dx := ap_x ap2 - ap_x ap1 in
      let dy := ap_y ap2 - ap_y ap1 in
      let* d_ap := py_sqrt (dx ^ 2 + dy ^ 2) in
      if Req_EM_T d_ap 0 then
        Ok (mkLoc (ap_x ap1) (ap_y ap1) 0.1 2 (py_max2 d1 d2))
      else
        let* r :=
          try_except_value_zerodiv (trilaterate_2ap_try ap1 d1 ap2 d2 dx dy d_ap)
            (Ok ((ap_x ap1 + ap_x ap2) / 2, (ap_y ap1 + ap_y ap2) / 2, 0.2)) in
        let '(x, y, confidence) := r in
        let error_radius := py_max2 d1 d2 * 0.3 in
        Ok (mkLoc x y confidence 2 error_radius)
  | _ => Raise ValueError
  end.

(** ** Multi-anchor least-squares solve *)

(** Column [i] of a two-column row. *)
Definition comp (i : nat) (row : R * R) : R :=
  match i with O => fst row | _ => snd row end.

(** One row of [A] and the matching entry of [b], relative to the first anchor. *)
Definition lin_row (ref : APCoordinates * R) (p : APCoordinates * R) : (R * R) * R :=
  let '(ref_ap, ref_dist) := ref in
  let '(ap, dist) := p in
  ((2 * (ap_x ap - ap_x ref_ap), 2 * (ap_y ap - ap_y ref_ap)),
   ap_x ap ^ 2 + ap_y ap ^ 2 - ap_x ref_ap ^ 2 - ap_y ref_ap ^ 2
     + ref_dist ^ 2 - dist ^ 2).

(** [ATA[i][j] = sum(A_T[i][k] * A[k][j] for k in range(len(A)))] *)
Definition ATA (A : list (R * R)) (i j : nat) : R :=
  py_sum (map (fun row => comp i row * comp j row) A).

(** [ATb[i] = sum(A_T[i][k] * b[k] for k in range(len(A)))] *)
Definition ATb (A : list (R * R)) (b : list R) (i : nat) : R :=
  py_sum (map (fun rb => comp i (fst rb) * snd rb) (combine A b)).

Definition normal_det (A : list (R * R)) : R :=
  ATA A 0 0 * ATA A 1 1 - ATA A 0 1 * ATA A 1 0.

Definition singular_threshold : R := 1e-10.

(** [abs(estimated_dist - dist)] for one anchor. *)
Definition residual (x y : R) (p : APCoordinates * R) : Result R :=
  let '(ap, dist) := p in
  let* estimated_dist := py_sqrt ((x - ap_x ap) ^ 2 + (y - ap_y ap) ^ 2) in
  Ok (Rabs (estimated_dist - dist)).

(** The [try] block of [_trilaterate_multiap]; returns
    [(x, y, confidence, error_radius)]. *)
Definition trilaterate_multiap_try (ap_distances : list (APCoordinates * R))
  (A : list (R * R)) (b : list R) : Result (R * R * R * R) :=
  let det := normal_det A in
  if Rlt_dec (Rabs det) singular_threshold then Raise ValueError
  else
    let* x := py_div (ATA A 1 1 * ATb A b 0 - ATA A 0 1 * ATb A b 1) det in
    let* y := py_div (ATA A 0 0 * ATb A b 1 - ATA A 1 0 * ATb A b 0) det in
    let* residuals := mapM (residual x y) ap_distances in
    let* avg_error := py_mean residuals in
    let* max_dist := py_max (map snd ap_distances) in
    let* q := py_div avg_error max_dist in
    let confidence := py_max2 0.1 (1.0 - q) in
    Ok (x, y, confidence, avg_error).

(** The [except] handler: centroid of the anchors. *)
Definition trilaterate_multiap_fallback (ap_distances : list (APCoordinates * R))
  : Result (R * R * R * R) :=
  let* x := py_mean (map (fun p => ap_x (fst p)) ap_distances) in
  let* y := py_mean (map (fun p => ap_y (fst p)) ap_distances) in
  let* m := py_mean (map snd ap_distances) in
  Ok (x, y, 0.3, m * 0.5).

Definition linear_system (ap_distances : list (APCoordinates * R))
  : list (R * R) * list R :=
  match ap_distances with
  | [] => ([], [])
  | ref :: rest =>
      let rows := map (lin_row ref) rest in (map fst rows, map snd rows)
  end.

(** [_trilaterate_multiap]; [ap_distances[0]] raises IndexError on an empty list. *)
Definition trilaterate_multiap (ap_distances : list (APCoordinates * R))
  : Result LocationEstimate :=
  let n := length ap_distances in
  match ap_distances with
  | [] => Raise IndexError
  | _ :: _ =>
      let '(A, b) := linear_system ap_distances in
      let* r := try_except_value_zerodiv
                  (trilaterate_multiap_try ap_distances A b)
                  (trilaterate_multiap_fallback ap_distances) in
      let '(x, y, confidence, error_radius) := r in
      Ok (mkLoc x y confidence n error_radius)
  end.

(** ** [trilaterate] *)

(** The loop of [trilaterate] building [ap_distances]: observations naming an
    unknown AP are skipped. *)
Fixpoint collect_ap_distances (t : WastelandTriangulator) (signals : list ClientSignal)
  : Result (list (APCoordinates * R)) :=
  match signals with
  | [] => Ok []
  | s :: rest =>
      match dict_get (ap_name s) (ap_coordinates t) with
      | None => collect_ap_distances t rest
      | Some ap_coord =>
          let* distance := rssi_to_distance t (rssi s) (frequency s) in
          let* tl := collect_ap_distances t rest in
          Ok ((ap_coord, distance) :: tl)
      end
  end.

Definition trilaterate (t : WastelandTriangulator) (signals : list ClientSignal)
  : Result (option LocationEstimate) :=
  if Nat.ltb (length signals) 2 then Ok None
  else
    let* ap_distances := collect_ap_distances t signals in
    if Nat.ltb (length ap_distances) 2 then Ok None
    else if Nat.eqb (length ap_distances) 2 then
      let* l := trilaterate_2ap ap_distances in Ok (Some l)
    else
      let* l := trilaterate_multiap ap_distances in Ok (Some l).

(** ** [track_clients] *)

(** [client_signals[signal.mac_address].append(signal)] over all signals. *)
Definition group_by_mac (all_signals : list ClientSignal)
  : list (string * list ClientSignal) :=
  fold_left
    (fun d s =>
       let prev := match dict_get (mac_address s) d with Some l => l | None => [] end in
       dict_set (mac_address s) (prev ++ [s]) d)
    all_signals [].

Definition R_le_b (x y : R) : bool := if Rle_dec x y then true else false.

(** [[s for s in signals if latest_time - s.timestamp <= 30]] *)
Definition recent_signals (latest_time : R) (signals : list ClientSignal)
  : list ClientSignal :=
  filter (fun s => R_le_b (latest_time - timestamp s) 30) signals.

(** The body of the per-client loop: the estimate kept for one client. *)
Definition locate_client (t : WastelandTriangulator) (signals : list ClientSignal)
  : Result (option LocationEstimate) :=
  match signals with
  | [] => Ok None
  | _ :: _ =>
      let* latest_time := py_max (map timestamp signals) in
      match recent_signals latest_time signals with
      | [] => Ok None
      | recent =>
          let* location := trilaterate t recent in
          match location with
          | Some loc => if Rlt_dec 0.1 (confidence loc) then Ok (Some loc) else Ok None
          | None => Ok None
          end
      end
  end.

Fixpoint track_loop (t : WastelandTriangulator)
  (groups : list (string * list ClientSignal))
  (client_locations : list (string * LocationEstimate))
  : Result (list (string * LocationEstimate)) :=
  match groups with
  | [] => Ok client_locations
  | (mac, signals) :: rest =>
      let* kept := locate_client t signals in
      track_loop t rest
        (match kept with
         | Some loc => dict_set mac loc client_locations
         | None => client_locations
         end)
  end.

Definition track_clients (t : WastelandTriangulator) (all_signals : list ClientSignal)
  : Result (list (string * LocationEstimate)) :=
  track_loop t (group_by_mac all_signals) [].

(** ** Helper definitions read off [_trilaterate_2ap] *)

(** [a] of the law-of-cosines projection. *)
Definition two_ap_a (d1 d2 d_ap : R) : R := (d1 ^ 2 - d2 ^ 2 + d_ap ^ 2) / (2 * d_ap).

(** The discriminant [h_sq]. *)
Definition two_ap_h_sq (d1 d2 d_ap : R) : R := d1 ^ 2 - two_ap_a d1 d2 d_ap ^ 2.

(** The baseline projection point [(px, py)]. *)
Definition baseline_projection (ap1 : APCoordinates) (d1 : R) (ap2 : APCoordinates) (d2 : R)
  : R * R :=
  let dx := ap_x ap2 - ap_x ap1 in
  let dy := ap_y ap2 - ap_y ap1 in
  let d_ap := sqrt (dx ^ 2 + dy ^ 2) in
  let a := two_ap_a d1 d2 d_ap in
  (ap_x ap1 + a * dx / d_ap, ap_y ap1 + a * dy / d_ap).

(** ** Definitions used in the statements *)

(** The frequency correction of [rssi_to_distance]. *)
Definition freq_correction_of (frequency : R) : Result R :=
  if Req_EM_T frequency 2.4 then Ok 0
  else let* l := py_log10 (frequency / 2.4) in Ok (20 * l).

(** Anchors on one line through the first anchor (direction [(u, v)]). *)
Definition collinear (l : list (APCoordinates * R)) : Prop :=
  match l with
  | [] => True
  | (ap0, _) :: rest =>
      exists u v, Forall (fun p => exists s, ap_x (fst p) - ap_x ap0 = s * u /\
                                             ap_y (fst p) - ap_y ap0 = s * v) rest
  end.

(** Distances that are exactly the Euclidean distances to [(px, py)]. *)
Definition exact_distances (px py : R) (l : list (APCoordinates * R)) : Prop :=
  Forall (fun p => snd p = sqrt ((px - ap_x (fst p)) ^ 2 + (py - ap_y (fst p)) ^ 2)) l.

Definition collinear_example : list (APCoordinates * R) :=
  [(mkAP 0 0 2.5 "ap-1", 5); (mkAP 1 1 2.5 "ap-2", 5); (mkAP 2 2 2.5 "ap-3", 5)].

(** Anchors (0,0), (1 mm, 0), (0, 1 mm): a non-degenerate triangle, with the
    distances from the true point (0, 0). *)
Definition small_triangle : list (APCoordinates * R) :=
  [(mkAP 0 0 2.5 "ap-1", sqrt ((0 - 0) ^ 2 + (0 - 0) ^ 2));
   (mkAP (1 / 1000) 0 2.5 "ap-2", sqrt ((0 - 1 / 1000) ^ 2 + (0 - 0) ^ 2));
   (mkAP 0 (1 / 1000) 2.5 "ap-3", sqrt ((0 - 0) ^ 2 + (0 - 1 / 1000) ^ 2))].

Definition right_triangle : list (APCoordinates * R) :=
  [(mkAP 0 0 2.5 "ap-1", sqrt ((3 - 0) ^ 2 + (4 - 0) ^ 2));
   (mkAP 10 0 2.5 "ap-2", sqrt ((3 - 10) ^ 2 + (4 - 0) ^ 2));
   (mkAP 0 10 2.5 "ap-3", sqrt ((3 - 0) ^ 2 + (4 - 10) ^ 2))].

(** Keys are distinct and every group is non-empty. *)
Definition groups_ok (d : list (string * list ClientSignal)) : Prop :=
  NoDup (map fst d) /\ forall k g, dict_get k d = Some g -> g <> [].

(** The signals passed to the solver for one client group. *)
Definition client_recent (signals : list ClientSignal) : list ClientSignal :=
  match py_max (map timestamp signals) with
  | Ok latest_time => recent_signals latest_time signals
  | Raise _ => []
  end.

(** [if location and location.confidence > 0.1] *)
Definition keep_confident (location : option LocationEstimate) : option LocationEstimate :=
  match location with
  | Some loc => if Rlt_dec 0.1 (confidence loc) then Some loc else None
  | None => None
  end.

(** [signal.ap_name in self.ap_coordinates] *)
Definition registered (t : WastelandTriangulator) (s : ClientSignal) : bool :=
  match dict_get (ap_name s) (ap_coordinates t) with Some _ => true | None => false end.

Definition one_ap_t : WastelandTriangulator :=
  add_ap (new_triangulator "indoor") "ap-1" 0 0 2.5.

(** A reading stronger than the reference RSSI (distance 0.5 m). *)
Definition near_signal (ts : R) : ClientSignal :=
  mkSignal "aa:bb:cc:dd:ee:01" "ap-1" 0 ts 2.4.

Definition single_anchor_signals : list ClientSignal :=
  [near_signal 0; near_signal 1; near_signal 2].

(** Two readings of the one registered AP (coincident anchors). *)
Definition coincident_pair_signals : list ClientSignal :=
  [near_signal 0; near_signal 1].

(** A reading of a second client, equal to the reference RSSI (distance 1 m);
    its MAC shares the first 8 characters with [near_signal]'s. *)
Definition reference_signal (ts : R) : ClientSignal :=
  mkSignal "aa:bb:cc:dd:ee:02" "ap-1" (-30) ts 2.4.

(** Two clients, three readings each, of the one registered AP. *)
Definition shared_prefix_signals : list ClientSignal :=
  single_anchor_signals ++ [reference_signal 0; reference_signal 1; reference_signal 2].

(** An observation naming an AP that is not registered in [one_ap_t]. *)
Definition unknown_ap_signal : ClientSignal :=
  mkSignal "aa:bb:cc:dd:ee:01" "ap-9" (-50) 0 2.4.

(** An observation of one client at one AP at time [T - k]. *)
Definition aged_signal (r f T k : R) : ClientSignal :=
  mkSignal "aa:bb:cc:dd:ee:01" "vault-ap-01" r (T - k) f.

(** ** Definitions used by the further properties *)

(** [[s for s in signals]] restricted to one client identifier. *)
Definition signals_of (mac : string) (all_signals : list ClientSignal) : list ClientSignal :=
  filter (fun s => String.eqb (mac_address s) mac) all_signals.

(** A registered observation whose distance conversion reaches [math.log10]
    with a non-positive argument. *)
Definition bad_frequency (t : WastelandTriangulator) (s : ClientSignal) : Prop :=
  registered t s = true /\ rssi s <= reference_rssi t /\ frequency s <= 0.

(** * The exporter side (ruckus_exporter.py) *)

(** [coords[i]] on a tuple of floats: IndexError out of range. *)
Definition tuple_get (coords : list R) (i : nat) : Result R :=
  match nth_error coords i with Some v => Ok v | None => Raise IndexError end.

(** [ap_ip in self.ap_hosts] *)
Definition str_in (s : string) (l : list string) : bool := existsb (String.eqb s) l.

(** The loop of [_setup_ap_coordinates] over the provided coordinates
    ([for ap_ip, coords in ap_coordinates.items()]). *)
Fixpoint setup_provided (ap_hosts : list string) (ap_coordinates : list (string * list R))
  (t : WastelandTriangulator) : Result WastelandTriangulator :=
  match ap_coordinates with
  | [] => Ok t
  | (ap_ip, coords) :: rest =>
      if str_in ap_ip ap_hosts then
        let* x := tuple_get coords 0 in
        let* y := tuple_get coords 1 in
        let* z := if Nat.ltb 2 (length coords) then tuple_get coords 2 else Ok 2.5 in
        setup_provided ap_hosts rest (add_ap t ap_ip x y z)
      else setup_provided ap_hosts rest t
  end.

(** The loop of [_setup_ap_coordinates] building the demo layout
    ([for i, ap_ip in enumerate(self.ap_hosts)], from index [i]). *)
Fixpoint setup_demo (i : nat) (ap_hosts : list string) (t : WastelandTriangulator)
  : WastelandTriangulator :=
  match ap_hosts with
  | [] => t
  | ap_ip :: rest => setup_demo (S i) rest (add_ap t ap_ip (INR i * 20) 0 2.5)
  end.

(** [_setup_ap_coordinates]. It is called from [__init__] right after
    [self.triangulator = WastelandTriangulator("indoor")], so its
    [if not self.triangulator] guard never fires there; [None] and an empty
    dict both select the demo layout. *)
Definition setup_ap_coordinates (ap_hosts : list string)
  (ap_coordinates : option (list (string * list R))) (t : WastelandTriangulator)
  : Result WastelandTriangulator :=
  match ap_coordinates with
  | Some ((_ :: _) as coords) => setup_provided ap_hosts coords t
  | _ => Ok (setup_demo 0 ap_hosts t)
  end.

(** A labelled Prometheus gauge: one value per tuple of label values, in the
    label order the gauge declares. *)
Definition Gauge := list (list string * R).

Fixpoint labels_get (k : list string) (g : Gauge) : option R :=
  match g with
  | [] => None
  | (k', v) :: g' => if list_eq_dec string_dec k k' then Some v else labels_get k g'
  end.

(** [gauge.labels(...).set(v)] *)
Fixpoint labels_set (k : list string) (v : R) (g : Gauge) : Gauge :=
  match g with
  | [] => [(k, v)]
  | (k', v') :: g' =>
      if list_eq_dec string_dec k k' then (k, v) :: g' else (k', v') :: labels_set k v g'
  end.

(** The attributes of [RuckusAPExporter] that [update_client_locations]
    reads or writes. *)
Record RuckusAPExporter := mkExporter {
  enable_triangulation : bool;
  triangulator : option WastelandTriangulator;
  client_signals : list ClientSignal;
  client_location_x : Gauge;           (* labels: client_mac, ap_host *)
  client_location_y : Gauge;           (* labels: client_mac, ap_host *)
  client_location_confidence : Gauge;  (* labels: client_mac *)
  client_location_error : Gauge        (* labels: client_mac *)
}.

(** [mac[:8] + "..."] *)
Definition mac_short (mac : string) : string := String.append (substring 0 8 mac) "...".

(** The loop [for mac, location in client_locations.items()] of
    [update_client_locations]. *)
Fixpoint publish_locations (client_locations : list (string * LocationEstimate))
  (e : RuckusAPExporter) : RuckusAPExporter :=
  match client_locations with
  | [] => e
  | (mac, location) :: rest =>
      let ms := mac_short mac in
      publish_locations rest
        (mkExporter (enable_triangulation e) (triangulator e) (client_signals e)
           (labels_set [ms; "triangulated"%string] (loc_x location) (client_location_x e))
           (labels_set [ms; "triangulated"%string] (loc_y location) (client_location_y e))
           (labels_set [ms] (confidence location) (client_location_confidence e))
           (labels_set [ms] (error_radius location) (client_location_error e)))
  end.

(** [update_client_locations]; [current_time] is the value of [time.time()]
    read after the metrics are set. *)
Definition update_client_locations (current_time : R) (e : RuckusAPExporter)
  : Result RuckusAPExporter :=
  if negb (enable_triangulation e) then Ok e
  else
    match triangulator e with
    | None => Ok e
    | Some t =>
        if Nat.ltb (length (client_signals e)) 2 then Ok e
        else
          let* client_locations := track_clients t (client_signals e) in
          let e' := publish_locations client_locations e in
          Ok (mkExporter (enable_triangulation e') (triangulator e')
                (filter (fun s => R_le_b (current_time - timestamp s) 60) (client_signals e'))
                (client_location_x e') (client_location_y e')
                (client_location_confidence e') (client_location_error e'))
    end.

(** The demo layout of an exporter started without coordinates. *)
Definition demo_triangulator (ap_hosts : list string) : WastelandTriangulator :=
  setup_demo 0 ap_hosts (new_triangulator "indoor").

(** An anchor moved by [(tx, ty)], with its distance unchanged. *)
Definition shift_anchor (tx ty : R) (p : APCoordinates * R) : APCoordinates * R :=
  (mkAP (ap_x (fst p) + tx) (ap_y (fst p) + ty) (ap_z (fst p)) (ap_label (fst p)), snd p).

(** An estimate moved by [(tx, ty)]. *)
Definition shift_estimate (tx ty : R) (loc : LocationEstimate) : LocationEstimate :=
  mkLoc (loc_x loc + tx) (loc_y loc + ty) (confidence loc) (num_aps loc) (error_radius loc).

(** * Lemmas on the Python primitives *)

Lemma py_sqrt_ok (x : R) : 0 <= x -> py_sqrt x = Ok (sqrt x).
Proof.
  intros H. unfold py_sqrt. destruct (Rlt_dec x 0); [lra | reflexivity].
Qed.

Lemma py_div_ok (x y : R) : y <> 0 -> py_div x y = Ok (x / y).
Proof.
  intros H. unfold py_div. destruct (Req_EM_T y 0); [contradiction | reflexivity].
Qed.

Lemma py_max2_Rmax (a b : R) : py_max2 a b = Rmax a b.
Proof.
  unfold py_max2, Rmax. destruct (Rlt_dec a b), (Rle_dec a b); lra.
Qed.

Lemma py_min2_Rmin (a b : R) : py_min2 a b = Rmin a b.
Proof.
  unfold py_min2, Rmin. destruct (Rlt_dec b a), (Rle_dec a b); lra.
Qed.

Lemma sum_squares_nonneg (u v : R) : 0 <= u ^ 2 + v ^ 2.
Proof. nra. Qed.

Ltac div_step := rewrite py_div_ok by (try assumption; lra); cbn [bind].

(** * Two-anchor solve *)

Lemma trilaterate_2ap_try_distinct (ap1 : APCoordinates) (d1 : R)
  (ap2 : APCoordinates) (d2 dx dy d_ap : R) :
  d_ap <> 0 ->
  trilaterate_2ap_try ap1 d1 ap2 d2 dx dy d_ap =
  Ok (ap_x ap1 + two_ap_a d1 d2 d_ap * dx / d_ap,
      ap_y ap1 + two_ap_a d1 d2 d_ap * dy / d_ap,
      if Rlt_dec (two_ap_h_sq d1 d2 d_ap) 0 then 0.3 else 0.7).
Proof.
  intros Hd. unfold trilaterate_2ap_try.
  rewrite py_div_ok by (intro H; apply Hd; lra). cbn [bind].
  fold (two_ap_a d1 d2 d_ap). fold (two_ap_h_sq d1 d2 d_ap).
  destruct (Rlt_dec (two_ap_h_sq d1 d2 d_ap) 0) as [Hneg | Hpos].
  - div_step. div_step. reflexivity.
  - rewrite py_sqrt_ok by lra. cbn [bind].
    repeat div_step.
    f_equal. f_equal. f_equal; field; exact Hd.
Qed.

(** The two-anchor solve on two anchors at distinct positions. *)
Lemma trilaterate_2ap_distinct (ap1 : APCoordinates) (d1 : R) (ap2 : APCoordinates) (d2 : R) :
  let dx := ap_x ap2 - ap_x ap1 in
  let dy := ap_y ap2 - ap_y ap1 in
  let d_ap := sqrt (dx ^ 2 + dy ^ 2) in
  d_ap <> 0 ->
  trilaterate_2ap [(ap1, d1); (ap2, d2)] =
  Ok (mkLoc (fst (baseline_projection ap1 d1 ap2 d2))
            (snd (baseline_projection ap1 d1 ap2 d2))
            (if Rlt_dec (two_ap_h_sq d1 d2 d_ap) 0 then 0.3 else 0.7)
            2 (Rmax d1 d2 * 0.3)).
Proof.
  intros dx dy d_ap Hd. unfold trilaterate_2ap. cbn [firstn].
  rewrite py_sqrt_ok by apply sum_squares_nonneg. cbn [bind].
  fold dx dy d_ap.
  destruct (Req_EM_T d_ap 0) as [H0 | _]; [contradiction |].
  rewrite trilaterate_2ap_try_distinct by exact Hd.
  cbn [try_except_value_zerodiv bind].
  rewrite py_max2_Rmax. reflexivity.
Qed.

(** The two-anchor solve on any two anchors. *)
Lemma trilaterate_2ap_cases (ap1 : APCoordinates) (d1 : R) (ap2 : APCoordinates) (d2 : R) :
  let dx := ap_x ap2 - ap_x ap1 in
  let dy := ap_y ap2 - ap_y ap1 in
  let d_ap := sqrt (dx ^ 2 + dy ^ 2) in
  (d_ap = 0 /\
   trilaterate_2ap [(ap1, d1); (ap2, d2)] =
   Ok (mkLoc (ap_x ap1) (ap_y ap1) 0.1 2 (Rmax d1 d2))) \/
  (d_ap <> 0 /\
   trilaterate_2ap [(ap1, d1); (ap2, d2)] =
   Ok (mkLoc (fst (baseline_projection ap1 d1 ap2 d2))
             (snd (baseline_projection ap1 d1 ap2 d2))
             (if Rlt_dec (two_ap_h_sq d1 d2 d_ap) 0 then 0.3 else 0.7)
             2 (Rmax d1 d2 * 0.3))).
Proof.
  intros dx dy d_ap.
  destruct (Req_EM_T d_ap 0) as [H0 | Hd].
  - left. split; [exact H0 |].
    unfold trilaterate_2ap. cbn [firstn].
    rewrite py_sqrt_ok by apply sum_squares_nonneg. cbn [bind].
    fold dx dy d_ap.
    destruct (Req_EM_T d_ap 0) as [_ | Hn]; [| contradiction].
    rewrite py_max2_Rmax. reflexivity.
  - right. split; [exact Hd |]. apply trilaterate_2ap_distinct. exact Hd.
Qed.

Lemma sqrt_sum_squares_zero (u v : R) : sqrt (u ^ 2 + v ^ 2) = 0 -> u = 0 /\ v = 0.
Proof.
  intros H. apply sqrt_eq_0 in H; [| apply sum_squares_nonneg]. split; nra.
Qed.

Lemma sqrt_sum_squares_nonzero (u v : R) : u <> 0 -> sqrt (u ^ 2 + v ^ 2) <> 0.
Proof.
  intros Hu H. apply sqrt_sum_squares_zero in H. destruct H; contradiction.
Qed.

(** * Claims on the two-anchor solve *)

(** C4: for two anchors with identical (x, y) coordinates, [_trilaterate_2ap]
    returns (without raising) exactly that coordinate, with confidence 0.1 and
    error radius the larger of the two estimated distances. *)
Theorem trilaterate_2ap_same_position (ap1 ap2 : APCoordinates) (d1 d2 : R) :
  ap_x ap1 = ap_x ap2 -> ap_y ap1 = ap_y ap2 ->
  trilaterate_2ap [(ap1, d1); (ap2, d2)] =
  Ok (mkLoc (ap_x ap1) (ap_y ap1) 0.1 2 (Rmax d1 d2)).
Proof.
  intros Hx Hy.
  destruct (trilaterate_2ap_cases ap1 d1 ap2 d2) as [[_ H] | [Hd _]]; [exact H |].
  exfalso. apply Hd.
  replace (ap_x ap2 - ap_x ap1) with 0 by lra.
  replace (ap_y ap2 - ap_y ap1) with 0 by lra.
  replace (0 ^ 2 + 0 ^ 2) with 0 by ring. apply sqrt_0.
Qed.

Lemma trilaterate_2ap_same_position_witness :
  ap_x (mkAP 5 7 2.5 "ap-a") = ap_x (mkAP 5 7 3.0 "ap-b") /\
  ap_y (mkAP 5 7 2.5 "ap-a") = ap_y (mkAP 5 7 3.0 "ap-b") /\
  trilaterate_2ap [(mkAP 5 7 2.5 "ap-a", 3); (mkAP 5 7 3.0 "ap-b", 4)] =
  Ok (mkLoc 5 7 0.1 2 (Rmax 3 4)).
Proof.
  split; [reflexivity |]. split; [reflexivity |].
  apply (trilaterate_2ap_same_position (mkAP 5 7 2.5 "ap-a") (mkAP 5 7 3.0 "ap-b") 3 4);
    reflexivity.
Defined.

(** C9: for two anchors at distinct positions, the intersecting branch
    (average of the two intersection candidates, [h_sq >= 0]) returns the
    baseline projection point [(px, py)], the same point the non-intersecting
    branch returns; the branches differ only in confidence (0.7 versus 0.3). *)
Theorem trilaterate_2ap_branches_same_point (ap1 ap2 : APCoordinates) (d1 d2 : R) :
  let dx := ap_x ap2 - ap_x ap1 in
  let dy := ap_y ap2 - ap_y ap1 in
  let d_ap := sqrt (dx ^ 2 + dy ^ 2) in
  d_ap <> 0 ->
  exists c,
    trilaterate_2ap [(ap1, d1); (ap2, d2)] =
    Ok (mkLoc (fst (baseline_projection ap1 d1 ap2 d2))
              (snd (baseline_projection ap1 d1 ap2 d2)) c 2 (Rmax d1 d2 * 0.3)) /\
    (0 <= two_ap_h_sq d1 d2 d_ap -> c = 0.7) /\
    (two_ap_h_sq d1 d2 d_ap < 0 -> c = 0.3).
Proof.
  intros dx dy d_ap Hd.
  exists (if Rlt_dec (two_ap_h_sq d1 d2 d_ap) 0 then 0.3 else 0.7).
  split; [apply trilaterate_2ap_distinct; exact Hd |].
  split; intros H; destruct (Rlt_dec (two_ap_h_sq d1 d2 d_ap) 0); (reflexivity || lra).
Qed.

Lemma trilaterate_2ap_branches_same_point_witness :
  sqrt ((20 - 0) ^ 2 + (0 - 0) ^ 2) <> 0 /\
  exists c,
    trilaterate_2ap [(mkAP 0 0 2.5 "ap-a", 10); (mkAP 20 0 2.5 "ap-b", 10)] =
    Ok (mkLoc (fst (baseline_projection (mkAP 0 0 2.5 "ap-a") 10 (mkAP 20 0 2.5 "ap-b") 10))
              (snd (baseline_projection (mkAP 0 0 2.5 "ap-a") 10 (mkAP 20 0 2.5 "ap-b") 10))
              c 2 (Rmax 10 10 * 0.3)) /\
    (0 <= two_ap_h_sq 10 10 (sqrt ((20 - 0) ^ 2 + (0 - 0) ^ 2)) -> c = 0.7) /\
    (two_ap_h_sq 10 10 (sqrt ((20 - 0) ^ 2 + (0 - 0) ^ 2)) < 0 -> c = 0.3).
Proof.
  assert (H : sqrt ((20 - 0) ^ 2 + (0 - 0) ^ 2) <> 0)
    by (apply sqrt_sum_squares_nonzero; lra).
  split; [exact H |].
  exact (trilaterate_2ap_branches_same_point (mkAP 0 0 2.5 "ap-a") (mkAP 20 0 2.5 "ap-b")
           10 10 H).
Defined.

(** C10: for two anchors at distinct positions ([d_ap <> 0]) the [try] block
    of [_trilaterate_2ap] never raises, so its midpoint fallback (confidence
    0.2) is unreachable, and it yields confidence 0.3 or 0.7; over all
    two-anchor inputs the solve returns normally with confidence 0.1, 0.3 or
    0.7. *)
Theorem trilaterate_2ap_fallback_unreachable (ap1 ap2 : APCoordinates) (d1 d2 : R) :
  let dx := ap_x ap2 - ap_x ap1 in
  let dy := ap_y ap2 - ap_y ap1 in
  let d_ap := sqrt (dx ^ 2 + dy ^ 2) in
  (d_ap <> 0 ->
   exists x y c, trilaterate_2ap_try ap1 d1 ap2 d2 dx dy d_ap = Ok (x, y, c) /\
                 (c = 0.3 \/ c = 0.7)) /\
  (exists l, trilaterate_2ap [(ap1, d1); (ap2, d2)] = Ok l /\
             (confidence l = 0.1 \/ confidence l = 0.3 \/ confidence l = 0.7)).
Proof.
  intros dx dy d_ap. split.
  - intros Hd. rewrite trilaterate_2ap_try_distinct by exact Hd.
    do 3 eexists. split; [reflexivity |].
    destruct (Rlt_dec (two_ap_h_sq d1 d2 d_ap) 0); [left | right]; reflexivity.
  - destruct (trilaterate_2ap_cases ap1 d1 ap2 d2) as [[_ H] | [_ H]];
      eexists; (split; [exact H |]); cbn [confidence].
    + left. reflexivity.
    + destruct (Rlt_dec _ 0); right; [left | right]; reflexivity.
Qed.

Lemma trilaterate_2ap_fallback_unreachable_witness :
  sqrt ((20 - 0) ^ 2 + (0 - 0) ^ 2) <> 0 /\
  exists x y c,
    trilaterate_2ap_try (mkAP 0 0 2.5 "ap-a") 10 (mkAP 20 0 2.5 "ap-b") 10
      (20 - 0) (0 - 0) (sqrt ((20 - 0) ^ 2 + (0 - 0) ^ 2)) = Ok (x, y, c) /\
    (c = 0.3 \/ c = 0.7).
Proof.
  assert (H : sqrt ((20 - 0) ^ 2 + (0 - 0) ^ 2) <> 0)
    by (apply sqrt_sum_squares_nonzero; lra).
  split; [exact H |].
  exact (proj1 (trilaterate_2ap_fallback_unreachable (mkAP 0 0 2.5 "ap-a")
                  (mkAP 20 0 2.5 "ap-b") 10 10) H).
Defined.

(** * Path loss model *)

Lemma new_triangulator_params (env : string) :
  reference_distance (new_triangulator env) = 1 /\
  0 < path_loss_exponent (new_triangulator env).
Proof.
  unfold new_triangulator.
  destruct (String.eqb env "indoor"); [| destruct (String.eqb env "outdoor")];
    cbn; split; lra.
Qed.

Lemma ln_10_pos : 0 < ln 10.
Proof. rewrite <- ln_1. apply ln_increasing; lra. Qed.

Lemma Rpower_10_le (a b : R) : a <= b -> Rpower 10 a <= Rpower 10 b.
Proof.
  intros H. unfold Rpower. destruct (Req_dec a b) as [-> | Hne]; [lra |].
  left. apply exp_increasing. pose proof ln_10_pos. nra.
Qed.

Lemma clamp_le (x y : R) : x <= y -> py_max2 1.0 (py_min2 100.0 x) <= py_max2 1.0 (py_min2 100.0 y).
Proof.
  intros H. rewrite !py_max2_Rmax, !py_min2_Rmin.
  apply Rle_max_compat_l, Rle_min_compat_l, H.
Qed.

Lemma clamp_range (x : R) : 1 <= py_max2 1.0 (py_min2 100.0 x) <= 100.
Proof.
  rewrite py_max2_Rmax, py_min2_Rmin.
  pose proof (Rmax_l 1.0 (Rmin 100.0 x)).
  assert (Rmax 1.0 (Rmin 100.0 x) <= 100.0)
    by (apply Rmax_lub; [lra | apply Rmin_l]).
  lra.
Qed.

Lemma rssi_to_distance_unfold (t : WastelandTriangulator) (r f : R) :
  rssi_to_distance t r f =
  if Rlt_dec (reference_rssi t) r then Ok 0.5
  else
    let* fc := freq_correction_of f in
    Ok (py_max2 1.0 (py_min2 100.0
          (reference_distance t *
           Rpower 10 ((reference_rssi t - (r - fc)) / (10 * path_loss_exponent t))))).
Proof. reflexivity. Qed.

Lemma rssi_to_distance_ok_cases (t : WastelandTriangulator) (r f d : R) :
  rssi_to_distance t r f = Ok d ->
  (reference_rssi t < r /\ d = 0.5) \/
  (r <= reference_rssi t /\ exists fc, freq_correction_of f = Ok fc /\
     d = py_max2 1.0 (py_min2 100.0
           (reference_distance t *
            Rpower 10 ((reference_rssi t - (r - fc)) / (10 * path_loss_exponent t))))).
Proof.
  rewrite rssi_to_distance_unfold.
  destruct (Rlt_dec (reference_rssi t) r) as [Hlt | Hge].
  - intros H. injection H as <-. left. split; [exact Hlt | reflexivity].
  - destruct (freq_correction_of f) as [fc | e] eqn:Hfc; cbn [bind]; intros H.
    + injection H as <-. right. split; [lra |]. exists fc. split; reflexivity.
    + discriminate H.
Qed.

Lemma freq_correction_of_ok (f : R) : 0 < f -> exists fc, freq_correction_of f = Ok fc.
Proof.
  intros Hf. unfold freq_correction_of.
  destruct (Req_EM_T f 2.4); [eexists; reflexivity |].
  unfold py_log10. destruct (Rle_dec (f / 2.4) 0) as [Hle | _].
  - exfalso. assert (0 < f / 2.4) by (apply Rdiv_lt_0_compat; lra). lra.
  - eexists. reflexivity.
Qed.

(** C3: for every environment profile and frequency, [rssi_to_distance] is
    non-increasing in the signal strength, and each result is either exactly
    0.5 (when the signal is stronger than the reference RSSI) or lies in
    [[1.0, 100.0]]; it returns normally for every positive frequency (a
    non-positive frequency makes [math.log10] raise ValueError). *)
Theorem rssi_to_distance_monotone_bounded (env : string) (frequency : R) :
  let t := new_triangulator env in
  (forall r d, rssi_to_distance t r frequency = Ok d ->
     (reference_rssi t < r /\ d = 0.5) \/ (r <= reference_rssi t /\ 1 <= d <= 100)) /\
  (forall r1 r2 d1 d2, r1 <= r2 ->
     rssi_to_distance t r1 frequency = Ok d1 ->
     rssi_to_distance t r2 frequency = Ok d2 -> d2 <= d1) /\
  (0 < frequency -> forall r, exists d, rssi_to_distance t r frequency = Ok d).
Proof.
  intros t. destruct (new_triangulator_params env) as [Href Hn]. fold t in Href, Hn.
  split; [| split].
  - intros r d H. apply rssi_to_distance_ok_cases in H.
    destruct H as [H | [Hr [fc [_ ->]]]]; [left; exact H |].
    right. split; [exact Hr | apply clamp_range].
  - intros r1 r2 d1 d2 Hr H1 H2.
    apply rssi_to_distance_ok_cases in H1, H2.
    destruct H1 as [[Hlt1 ->] | [Hge1 [fc1 [Hfc1 ->]]]];
      destruct H2 as [[Hlt2 ->] | [Hge2 [fc2 [Hfc2 ->]]]].
    + lra.
    + lra.
    + pose proof (clamp_range (reference_distance t *
        Rpower 10 ((reference_rssi t - (r1 - fc1)) / (10 * path_loss_exponent t)))).
      lra.
    + rewrite Hfc1 in Hfc2. injection Hfc2 as <-.
      apply clamp_le. rewrite Href, !Rmult_1_l. apply Rpower_10_le.
      unfold Rdiv. apply Rmult_le_compat_r.
      * left. apply Rinv_0_lt_compat. lra.
      * lra.
  - intros Hf r. rewrite rssi_to_distance_unfold.
    destruct (Rlt_dec (reference_rssi t) r); [eexists; reflexivity |].
    destruct (freq_correction_of_ok frequency Hf) as [fc ->]. cbn [bind].
    eexists. reflexivity.
Qed.

Lemma rssi_to_distance_monotone_bounded_witness :
  exists d1, rssi_to_distance (new_triangulator "indoor") (-60) 2.4 = Ok d1 /\
             rssi_to_distance (new_triangulator "indoor") 0 2.4 = Ok 0.5 /\
             0.5 <= d1 /\ 1 <= d1 <= 100.
Proof.
  destruct (rssi_to_distance_monotone_bounded "indoor" 2.4) as [Hrange [Hmono Htot]].
  destruct (Htot ltac:(lra) (-60)) as [d1 Hd1].
  assert (H0 : rssi_to_distance (new_triangulator "indoor") 0 2.4 = Ok 0.5).
  { rewrite rssi_to_distance_unfold.
    change (reference_rssi (new_triangulator "indoor")) with (-30).
    destruct (Rlt_dec (-30) 0) as [_ | Hn]; [reflexivity | lra]. }
  exists d1. split; [exact Hd1 |]. split; [exact H0 |]. split.
  - exact (Hmono (-60) 0 d1 0.5 ltac:(lra) Hd1 H0).
  - destruct (Hrange (-60) d1 Hd1) as [[Hc _] | [_ Hb]]; [| exact Hb].
    cbn in Hc. lra.
Defined.

(** * Multi-anchor solve *)

Lemma fold_left_Rplus_shift (l : list R) (a : R) :
  fold_left Rplus l a = a + fold_left Rplus l 0.
Proof.
  revert a. induction l as [| x l IH]; intros a; cbn [fold_left]; [lra |].
  rewrite (IH (a + x)), (IH (0 + x)). lra.
Qed.

Lemma py_sum_nil : py_sum [] = 0.
Proof. reflexivity. Qed.

Lemma py_sum_cons (x : R) (l : list R) : py_sum (x :: l) = x + py_sum l.
Proof. unfold py_sum. cbn [fold_left]. rewrite fold_left_Rplus_shift. lra. Qed.

Lemma ATA_cons (row : R * R) (A : list (R * R)) (i j : nat) :
  ATA (row :: A) i j = comp i row * comp j row + ATA A i j.
Proof. unfold ATA. cbn [map]. apply py_sum_cons. Qed.

Lemma combine_map_fst_snd {X Y : Type} (l : list (X * Y)) :
  combine (map fst l) (map snd l) = l.
Proof. induction l as [| [x y] l IH]; cbn; [reflexivity | rewrite IH; reflexivity]. Qed.

Lemma try_except_ok {A : Type} (a : A) (h : Result A) :
  try_except_value_zerodiv (Ok a) h = Ok a.
Proof. reflexivity. Qed.

Lemma py_mean_ok (l : list R) :
  l <> [] -> py_mean l = Ok (py_sum l / INR (length l)).
Proof. destruct l; [contradiction | reflexivity]. Qed.

(** The centroid fallback on a non-empty list. *)
Lemma trilaterate_multiap_fallback_ok (l : list (APCoordinates * R)) :
  l <> [] ->
  trilaterate_multiap_fallback l =
  Ok (py_sum (map (fun p => ap_x (fst p)) l) / INR (length l),
      py_sum (map (fun p => ap_y (fst p)) l) / INR (length l),
      0.3,
      py_sum (map snd l) / INR (length l) * 0.5).
Proof.
  intros Hl. unfold trilaterate_multiap_fallback.
  assert (Hm : forall f : APCoordinates * R -> R, map f l <> []).
  { intros f. destruct l; [contradiction | discriminate]. }
  rewrite py_mean_ok by apply Hm. cbn [bind].
  rewrite py_mean_ok by apply Hm. cbn [bind].
  rewrite py_mean_ok by apply Hm. cbn [bind].
  rewrite !length_map. reflexivity.
Qed.

(** A near-singular normal matrix sends the multi-anchor solve to the
    centroid fallback. *)
Lemma trilaterate_multiap_singular (l : list (APCoordinates * R)) :
  l <> [] ->
  Rabs (normal_det (fst (linear_system l))) < singular_threshold ->
  trilaterate_multiap l =
  Ok (mkLoc (py_sum (map (fun p => ap_x (fst p)) l) / INR (length l))
            (py_sum (map (fun p => ap_y (fst p)) l) / INR (length l))
            0.3 (length l)
            (py_sum (map snd l) / INR (length l) * 0.5)).
Proof.
  intros Hl Hdet. unfold trilaterate_multiap.
  destruct l as [| ref rest] eqn:El; [contradiction |]. rewrite <- El in *.
  destruct (linear_system l) as [A b] eqn:Els. cbn [fst] in Hdet.
  unfold trilaterate_multiap_try.
  destruct (Rlt_dec (Rabs (normal_det A)) singular_threshold) as [_ | Hn]; [| contradiction].
  cbn [try_except_value_zerodiv].
  rewrite trilaterate_multiap_fallback_ok by exact Hl. reflexivity.
Qed.

Lemma collinear_normal_det (l : list (APCoordinates * R)) :
  collinear l -> normal_det (fst (linear_system l)) = 0.
Proof.
  destruct l as [| [ap0 d0] rest].
  { intros _. unfold normal_det, ATA, py_sum. cbn. ring. }
  intros [u [v Hrest]]. cbn [linear_system fst].
  assert (HS : exists S, ATA (map fst (map (lin_row (ap0, d0)) rest)) 0 0 = S * u * u /\
                         ATA (map fst (map (lin_row (ap0, d0)) rest)) 1 1 = S * v * v /\
                         ATA (map fst (map (lin_row (ap0, d0)) rest)) 0 1 = S * u * v /\
                         ATA (map fst (map (lin_row (ap0, d0)) rest)) 1 0 = S * v * u).
  { induction Hrest as [| [ap d] rest [s [Hx Hy]] _ IH].
    - exists 0. unfold ATA. cbn. repeat split; ring.
    - destruct IH as [S [H00 [H11 [H01 H10]]]].
      exists (4 * s * s + S). cbn [map].
      rewrite !ATA_cons, H00, H11, H01, H10. cbn [lin_row comp fst snd] in *.
      rewrite Hx, Hy. repeat split; ring. }
  destruct HS as [S [H00 [H11 [H01 H10]]]].
  unfold normal_det. rewrite H00, H11, H01, H10. ring.
Qed.

Lemma lin_row_exact (ap0 ap : APCoordinates) (d0 d px py : R) :
  d0 = sqrt ((px - ap_x ap0) ^ 2 + (py - ap_y ap0) ^ 2) ->
  d = sqrt ((px - ap_x ap) ^ 2 + (py - ap_y ap) ^ 2) ->
  snd (lin_row (ap0, d0) (ap, d)) =
  comp 0 (fst (lin_row (ap0, d0) (ap, d))) * px + comp 1 (fst (lin_row (ap0, d0) (ap, d))) * py.
Proof.
  intros H0 H. cbn [lin_row fst snd comp].
  rewrite H0, H, !pow2_sqrt by apply sum_squares_nonneg. ring.
Qed.

Lemma ATb_exact (rows : list ((R * R) * R)) (px py : R) (i : nat) :
  Forall (fun rb => snd rb = comp 0 (fst rb) * px + comp 1 (fst rb) * py) rows ->
  ATb (map fst rows) (map snd rows) i =
  ATA (map fst rows) i 0 * px + ATA (map fst rows) i 1 * py.
Proof.
  intros Hrows. unfold ATb. rewrite combine_map_fst_snd.
  induction Hrows as [| rb rows Hrb _ IH].
  - unfold ATA, py_sum. cbn. ring.
  - cbn [map]. rewrite py_sum_cons, !ATA_cons, IH, Hrb. ring.
Qed.

Lemma residuals_exact (px py : R) (l : list (APCoordinates * R)) :
  exact_distances px py l ->
  mapM (residual px py) l = Ok (map (fun _ => 0) l).
Proof.
  intros Hl. induction Hl as [| [ap d] l Hd _ IH]; [reflexivity |].
  cbn [mapM residual fst snd] in *.
  rewrite py_sqrt_ok by apply sum_squares_nonneg. cbn [bind].
  rewrite IH. cbn [bind map]. rewrite <- Hd, Rminus_diag, Rabs_R0. reflexivity.
Qed.

Lemma py_sum_zeros {X : Type} (l : list X) : py_sum (map (fun _ => 0) l) = 0.
Proof.
  induction l as [| x l IH]; [reflexivity |]. cbn [map]. rewrite py_sum_cons, IH. ring.
Qed.

Lemma fold_max_bounds (xs : list R) (x : R) :
  x <= fold_left py_max2 xs x /\ Forall (fun y => y <= fold_left py_max2 xs x) xs.
Proof.
  revert x. induction xs as [| y xs IH]; intros x; cbn [fold_left].
  - split; [lra | constructor].
  - destruct (IH (py_max2 x y)) as [Hge Hall].
    assert (x <= py_max2 x y /\ y <= py_max2 x y)
      by (unfold py_max2; destruct (Rlt_dec x y); lra).
    split; [lra | constructor; [lra | exact Hall]].
Qed.

(** With exact distances and a non-singular normal matrix, the largest
    distance is positive. *)
Lemma exact_max_dist_pos (ap0 : APCoordinates) (d0 : R) (rest : list (APCoordinates * R))
  (px py : R) :
  exact_distances px py ((ap0, d0) :: rest) ->
  normal_det (fst (linear_system ((ap0, d0) :: rest))) <> 0 ->
  0 < fold_left py_max2 (map snd rest) d0.
Proof.
  intros Hex Hdet.
  destruct (fold_max_bounds (map snd rest) d0) as [Hge Hall].
  set (m := fold_left py_max2 (map snd rest) d0) in *.
  inversion Hex as [| ? ? Hd0 Hrest]; subst. cbn [fst snd] in Hd0.
  assert (H0 : 0 <= d0) by (rewrite Hd0; apply sqrt_pos).
  destruct (Rlt_dec 0 m) as [Hm | Hm]; [exact Hm | exfalso].
  apply Hdet, collinear_normal_det.
  assert (Hd0z : d0 = 0) by lra.
  rewrite Hd0z in Hd0. symmetry in Hd0. apply sqrt_sum_squares_zero in Hd0.
  exists 0, 0. rewrite Forall_map in Hall. rewrite Forall_forall in Hall, Hrest |- *.
  intros [ap d] Hin. specialize (Hall _ Hin). specialize (Hrest _ Hin).
  cbn [fst snd] in *.
  assert (Hdz : d = 0).
  { assert (0 <= d) by (rewrite Hrest; apply sqrt_pos). lra. }
  rewrite Hdz in Hrest. symmetry in Hrest. apply sqrt_sum_squares_zero in Hrest.
  exists 0. split; lra.
Qed.

(** The multi-anchor solve with exact distances and a non-singular normal
    matrix. *)
Lemma trilaterate_multiap_exact (l : list (APCoordinates * R)) (px py : R) :
  l <> [] ->
  exact_distances px py l ->
  singular_threshold <= Rabs (normal_det (fst (linear_system l))) ->
  trilaterate_multiap l = Ok (mkLoc px py 1 (length l) 0).
Proof.
  intros Hne Hex Hdet.
  destruct l as [| [ap0 d0] rest]; [contradiction |].
  assert (Hdn : normal_det (fst (linear_system ((ap0, d0) :: rest))) <> 0).
  { intros H. rewrite H, Rabs_R0 in Hdet. unfold singular_threshold in Hdet. lra. }
  pose proof (exact_max_dist_pos ap0 d0 rest px py Hex Hdn) as Hm.
  assert (Hrows : Forall (fun rb => snd rb = comp 0 (fst rb) * px + comp 1 (fst rb) * py)
                    (map (lin_row (ap0, d0)) rest)).
  { inversion Hex as [| ? ? Hd0 Hrest]; subst. cbn [fst snd] in Hd0.
    rewrite Forall_map. rewrite Forall_forall in Hrest |- *.
    intros [ap d] Hin. apply lin_row_exact; [exact Hd0 | exact (Hrest _ Hin)]. }
  unfold trilaterate_multiap. cbn [linear_system] in *. cbn [fst] in Hdet, Hdn.
  set (rows := map (lin_row (ap0, d0)) rest) in *.
  set (A := map fst rows) in *.
  unfold trilaterate_multiap_try.
  destruct (Rlt_dec (Rabs (normal_det A)) singular_threshold) as [Hlt | _]; [lra |].
  rewrite !(ATb_exact rows px py _ Hrows). fold A.
  rewrite py_div_ok by exact Hdn. cbn [bind].
  rewrite py_div_ok by exact Hdn. cbn [bind].
  replace ((ATA A 1 1 * (ATA A 0 0 * px + ATA A 0 1 * py) -
            ATA A 0 1 * (ATA A 1 0 * px + ATA A 1 1 * py)) / normal_det A) with px
    by (unfold normal_det in *; field; exact Hdn).
  replace ((ATA A 0 0 * (ATA A 1 0 * px + ATA A 1 1 * py) -
            ATA A 1 0 * (ATA A 0 0 * px + ATA A 0 1 * py)) / normal_det A) with py
    by (unfold normal_det in *; field; exact Hdn).
  rewrite (residuals_exact px py _ Hex). cbn [bind].
  rewrite py_mean_ok by discriminate. cbn [bind].
  rewrite py_sum_zeros.
  cbn [map py_max bind snd].
  rewrite py_div_ok by lra. cbn [bind].
  unfold Rdiv. rewrite !Rmult_0_l, Rminus_0_r.
  unfold py_max2. destruct (Rlt_dec 0.1 1.0) as [_ | Hn]; [| lra].
  rewrite try_except_ok. cbn [bind]. do 2 f_equal. lra.
Qed.

(** * Claims on the multi-anchor solve *)

(** C5: for three or more (anchor, distance) pairs whose anchors are
    collinear, or whose normal-equations determinant is below the threshold
    [1e-10] in magnitude, [_trilaterate_multiap] returns the centroid of the
    anchor coordinates with confidence 0.3 and error radius half the mean
    distance, without raising. *)
Theorem trilaterate_multiap_centroid_fallback (l : list (APCoordinates * R)) :
  (3 <= length l)%nat ->
  collinear l \/ Rabs (normal_det (fst (linear_system l))) < singular_threshold ->
  trilaterate_multiap l =
  Ok (mkLoc (py_sum (map (fun p => ap_x (fst p)) l) / INR (length l))
            (py_sum (map (fun p => ap_y (fst p)) l) / INR (length l))
            0.3 (length l)
            (py_sum (map snd l) / INR (length l) * 0.5)).
Proof.
  intros Hlen Hdeg. apply trilaterate_multiap_singular.
  - intros ->. cbn in Hlen. lia.
  - destruct Hdeg as [Hcol | Hdet]; [| exact Hdet].
    rewrite collinear_normal_det by exact Hcol. rewrite Rabs_R0.
    unfold singular_threshold. lra.
Qed.

Lemma trilaterate_multiap_centroid_fallback_witness :
  (3 <= length collinear_example)%nat /\
  collinear collinear_example /\
  trilaterate_multiap collinear_example =
  Ok (mkLoc (py_sum (map (fun p => ap_x (fst p)) collinear_example) / INR 3)
            (py_sum (map (fun p => ap_y (fst p)) collinear_example) / INR 3)
            0.3 3
            (py_sum (map snd collinear_example) / INR 3 * 0.5)).
Proof.
  assert (Hlen : (3 <= length collinear_example)%nat) by (cbn; lia).
  assert (Hcol : collinear collinear_example).
  { exists 1, 1. repeat constructor; [exists 1 | exists 2]; cbn; split; lra. }
  split; [exact Hlen |]. split; [exact Hcol |].
  exact (trilaterate_multiap_centroid_fallback collinear_example Hlen (or_introl Hcol)).
Defined.

Ltac eval_normal_det :=
  cbn [linear_system map lin_row fst snd ap_x ap_y];
  unfold normal_det, ATA, py_sum; cbn [fold_left map comp fst snd].

(** C1 (as stated, refuted): anchors forming a non-degenerate triangle of
    side 1 mm, with exact distances to the true point (0, 0), send
    [_trilaterate_multiap] to the centroid fallback (determinant 1.6e-11 is
    below the 1e-10 threshold): it returns a point other than (0, 0), with
    confidence 0.3. *)
Lemma trilaterate_multiap_small_triangle_counterexample :
  exact_distances 0 0 small_triangle /\
  (1 / 1000 - 0) * (1 / 1000 - 0) - (0 - 0) * (0 - 0) <> 0 /\
  exists loc, trilaterate_multiap small_triangle = Ok loc /\
              confidence loc = 0.3 /\ (loc_x loc, loc_y loc) <> (0, 0).
Proof.
  split; [repeat constructor |]. split; [lra |].
  assert (Hdet : Rabs (normal_det (fst (linear_system small_triangle))) < singular_threshold).
  { unfold small_triangle. eval_normal_det.
    rewrite Rabs_pos_eq by nra. unfold singular_threshold. nra. }
  eexists. split.
  - apply trilaterate_multiap_singular; [discriminate | exact Hdet].
  - cbn [confidence loc_x loc_y]. split; [reflexivity |].
    intros H. injection H as Hx _. unfold small_triangle in Hx.
    cbn [map fst ap_x length INR] in Hx. rewrite !py_sum_cons, py_sum_nil in Hx.
    assert (H3 : 0 < 1 + 1 + 1) by lra.
    apply (f_equal (fun z => z * (1 + 1 + 1))) in Hx.
    unfold Rdiv in Hx. rewrite Rmult_assoc, Rinv_l in Hx; lra.
Qed.

(** C1 (amended): for three or more (anchor, distance) pairs whose distances
    are exactly the Euclidean distances to a point [(px, py)] and whose
    normal-equations determinant is at least [1e-10] in magnitude,
    [_trilaterate_multiap] returns [(px, py)] with confidence exactly 1.0 and
    error radius exactly 0. *)
Theorem trilaterate_multiap_reconstructs_point (l : list (APCoordinates * R)) (px py : R) :
  (3 <= length l)%nat ->
  exact_distances px py l ->
  singular_threshold <= Rabs (normal_det (fst (linear_system l))) ->
  trilaterate_multiap l = Ok (mkLoc px py 1 (length l) 0).
Proof.
  intros Hlen Hex Hdet. apply trilaterate_multiap_exact; [| exact Hex | exact Hdet].
  intros ->. cbn in Hlen. lia.
Qed.

Lemma trilaterate_multiap_reconstructs_point_witness :
  (3 <= length right_triangle)%nat /\
  exact_distances 3 4 right_triangle /\
  singular_threshold <= Rabs (normal_det (fst (linear_system right_triangle))) /\
  trilaterate_multiap right_triangle = Ok (mkLoc 3 4 1 3 0).
Proof.
  assert (Hlen : (3 <= length right_triangle)%nat) by (cbn; lia).
  assert (Hex : exact_distances 3 4 right_triangle) by repeat constructor.
  assert (Hdet : singular_threshold <= Rabs (normal_det (fst (linear_system right_triangle)))).
  { unfold right_triangle. eval_normal_det.
    rewrite Rabs_pos_eq by nra. unfold singular_threshold. nra. }
  split; [exact Hlen |]. split; [exact Hex |]. split; [exact Hdet |].
  exact (trilaterate_multiap_reconstructs_point right_triangle 3 4 Hlen Hex Hdet).
Defined.

(** * Dictionaries *)

Lemma dict_get_set_eq {V : Type} (k : string) (v : V) (d : list (string * V)) :
  dict_get k (dict_set k v d) = Some v.
Proof.
  induction d as [| [k' v'] d IH]; cbn.
  - rewrite String.eqb_refl. reflexivity.
  - destruct (String.eqb_spec k k') as [-> | Hne]; cbn.
    + rewrite String.eqb_refl. reflexivity.
    + destruct (String.eqb_spec k k'); [contradiction | exact IH].
Qed.

Lemma dict_get_set_neq {V : Type} (k k' : string) (v : V) (d : list (string * V)) :
  k' <> k -> dict_get k' (dict_set k v d) = dict_get k' d.
Proof.
  intros Hne. induction d as [| [k0 v0] d IH]; cbn.
  - destruct (String.eqb_spec k' k); [contradiction | reflexivity].
  - destruct (String.eqb_spec k k0) as [-> | Hk0]; cbn.
    + destruct (String.eqb_spec k' k0); [contradiction | reflexivity].
    + destruct (String.eqb_spec k' k0); [reflexivity | exact IH].
Qed.

Lemma dict_get_none {V : Type} (k : string) (d : list (string * V)) :
  ~ In k (map fst d) -> dict_get k d = None.
Proof.
  induction d as [| [k' v] d IH]; cbn; intros Hn; [reflexivity |].
  destruct (String.eqb_spec k k') as [-> | _]; [exfalso; apply Hn; left; reflexivity |].
  apply IH. intros H. apply Hn. right. exact H.
Qed.

Lemma dict_set_keys {V : Type} (k : string) (v : V) (d : list (string * V)) (k' : string) :
  In k' (map fst (dict_set k v d)) <-> k' = k \/ In k' (map fst d).
Proof.
  induction d as [| [k0 v0] d IH]; cbn.
  - split; [intros [H | []]; left; congruence | intros [H | []]; left; congruence].
  - destruct (String.eqb_spec k k0) as [-> | _]; cbn.
    + split; [intros [H | H]; [left | right; right]; congruence || exact H |].
      intros [H | [H | H]]; [left | left | right]; congruence || exact H.
    + rewrite IH. tauto.
Qed.

Lemma dict_set_nodup {V : Type} (k : string) (v : V) (d : list (string * V)) :
  NoDup (map fst d) -> NoDup (map fst (dict_set k v d)).
Proof.
  induction d as [| [k0 v0] d IH]; cbn; intros Hnd.
  - constructor; [intros [] | constructor].
  - inversion Hnd as [| ? ? Hnin Hnd']; subst.
    destruct (String.eqb_spec k k0) as [-> | Hne]; cbn.
    + constructor; assumption.
    + constructor; [| apply IH; exact Hnd'].
      rewrite dict_set_keys. intros [H | H]; [congruence | contradiction].
Qed.

(** * Grouping by client *)

Lemma group_by_mac_ok (all_signals : list ClientSignal) : groups_ok (group_by_mac all_signals).
Proof.
  unfold group_by_mac.
  assert (Hinv : forall l d, groups_ok d ->
    groups_ok (fold_left (fun d s =>
       let prev := match dict_get (mac_address s) d with Some l => l | None => [] end in
       dict_set (mac_address s) (prev ++ [s]) d) l d)).
  { induction l as [| s l IH]; intros d [Hnd Hne]; cbn [fold_left]; [split; assumption |].
    apply IH. split; [apply dict_set_nodup; exact Hnd |].
    intros k g Hk. destruct (String.eqb_spec k (mac_address s)) as [-> | Hkn].
    - rewrite dict_get_set_eq in Hk. injection Hk as <-.
      intros H. apply app_eq_nil in H. destruct H as [_ H]. discriminate H.
    - rewrite dict_get_set_neq in Hk by exact Hkn. exact (Hne k g Hk). }
  apply Hinv. split; [constructor | intros k g H; discriminate H].
Qed.

(** * Tracking *)

Lemma fold_max_mem (xs : list R) (x : R) :
  fold_left py_max2 xs x = x \/ In (fold_left py_max2 xs x) xs.
Proof.
  revert x. induction xs as [| y xs IH]; intros x; cbn [fold_left]; [left; reflexivity |].
  destruct (IH (py_max2 x y)) as [H | H]; [| right; right; exact H].
  rewrite H. unfold py_max2. destruct (Rlt_dec x y); [right; left | left]; reflexivity.
Qed.

Lemma R_le_b_true (x y : R) : R_le_b x y = true <-> x <= y.
Proof. unfold R_le_b. destruct (Rle_dec x y); split; intros; (assumption || discriminate || contradiction || reflexivity). Qed.

Lemma recent_signals_In (latest : R) (g : list ClientSignal) (s : ClientSignal) :
  In s (recent_signals latest g) <-> In s g /\ latest - timestamp s <= 30.
Proof. unfold recent_signals. rewrite filter_In, R_le_b_true. reflexivity. Qed.

Lemma py_max_bounds (xs : list R) (m : R) :
  py_max xs = Ok m -> In m xs /\ Forall (fun y => y <= m) xs.
Proof.
  destruct xs as [| x xs]; cbn; intros H; [discriminate H |]. injection H as <-.
  destruct (fold_max_bounds xs x) as [Hge Hall]. split.
  - destruct (fold_max_mem xs x) as [H | H]; [left; symmetry; exact H | right; exact H].
  - constructor; [exact Hge | exact Hall].
Qed.

Lemma client_recent_nonempty (g : list ClientSignal) : g <> [] -> client_recent g <> [].
Proof.
  intros Hg. unfold client_recent.
  destruct (py_max (map timestamp g)) as [m | e] eqn:Hm.
  - destruct (py_max_bounds _ _ Hm) as [Hin _].
    apply in_map_iff in Hin. destruct Hin as [s [Hs Hin]].
    intros Hnil. assert (Hr : In s (recent_signals m g)).
    { apply recent_signals_In. split; [exact Hin | rewrite Hs; lra]. }
    rewrite Hnil in Hr. exact Hr.
  - destruct g; [contradiction | discriminate Hm].
Qed.

Lemma locate_client_eq (t : WastelandTriangulator) (g : list ClientSignal) :
  g <> [] ->
  locate_client t g = let* location := trilaterate t (client_recent g) in
                      Ok (keep_confident location).
Proof.
  intros Hg. pose proof (client_recent_nonempty g Hg) as Hr.
  destruct g as [| s g']; [contradiction |].
  unfold locate_client, client_recent in *. cbn [map py_max bind] in *.
  destruct (recent_signals (fold_left py_max2 (map timestamp g') (timestamp s)) (s :: g'))
    as [| r0 rs]; [contradiction |].
  destruct (trilaterate t (r0 :: rs)) as [[loc |] | e]; cbn [bind keep_confident];
    [destruct (Rlt_dec 0.1 (confidence loc)) |..]; reflexivity.
Qed.

Lemma track_loop_lookup (t : WastelandTriangulator) (groups : list (string * list ClientSignal))
  (acc out : list (string * LocationEstimate)) (mac : string) :
  NoDup (map fst groups) ->
  track_loop t groups acc = Ok out ->
  (forall g, dict_get mac groups = Some g -> dict_get mac acc = None ->
             locate_client t g = Ok (dict_get mac out)) /\
  (dict_get mac groups = None -> dict_get mac out = dict_get mac acc).
Proof.
  revert acc. induction groups as [| [m g'] rest IH]; intros acc Hnd Hloop.
  - cbn in Hloop. injection Hloop as <-. split; [intros g H; discriminate H | reflexivity].
  - inversion Hnd as [| ? ? Hnin Hnd']; subst.
    cbn [track_loop] in Hloop.
    destruct (locate_client t g') as [kept | e] eqn:Hk; cbn [bind] in Hloop;
      [| discriminate Hloop].
    set (acc' := match kept with Some loc => dict_set m loc acc | None => acc end) in Hloop.
    destruct (IH acc' Hnd' Hloop) as [IH1 IH2].
    cbn [dict_get]. destruct (String.eqb_spec mac m) as [-> | Hne].
    + split; [| intros H; discriminate H].
      intros g Hg Hacc. injection Hg as <-.
      rewrite (IH2 (dict_get_none _ _ Hnin)). rewrite Hk. unfold acc'.
      destruct kept as [loc |]; [rewrite dict_get_set_eq | rewrite Hacc]; reflexivity.
    + assert (Hacc' : dict_get mac acc' = dict_get mac acc).
      { unfold acc'. destruct kept; [apply dict_get_set_neq; exact Hne | reflexivity]. }
      split.
      * intros g Hg Hacc. apply IH1; [exact Hg | rewrite Hacc'; exact Hacc].
      * intros Hg. rewrite (IH2 Hg). exact Hacc'.
Qed.

(** What [track_clients] returns for one client identifier. *)
Lemma track_clients_lookup (t : WastelandTriangulator) (all_signals : list ClientSignal)
  (out : list (string * LocationEstimate)) (mac : string) :
  track_clients t all_signals = Ok out ->
  (forall g, dict_get mac (group_by_mac all_signals) = Some g ->
     exists r, trilaterate t (client_recent g) = Ok r /\ dict_get mac out = keep_confident r) /\
  (dict_get mac (group_by_mac all_signals) = None -> dict_get mac out = None).
Proof.
  intros H. destruct (group_by_mac_ok all_signals) as [Hnd Hne].
  destruct (track_loop_lookup t _ [] out mac Hnd H) as [H1 H2]. split.
  - intros g Hg. specialize (H1 g Hg eq_refl).
    rewrite locate_client_eq in H1 by exact (Hne _ _ Hg).
    destruct (trilaterate t (client_recent g)) as [r | e]; cbn [bind] in H1;
      [| discriminate H1].
    exists r. split; [reflexivity |]. injection H1 as H1. symmetry. exact H1.
  - intros Hg. rewrite (H2 Hg). reflexivity.
Qed.

(** * [trilaterate] *)

Lemma rssi_to_distance_total (t : WastelandTriangulator) (r f : R) :
  0 < f -> exists d, rssi_to_distance t r f = Ok d.
Proof.
  intros Hf. rewrite rssi_to_distance_unfold.
  destruct (Rlt_dec (reference_rssi t) r); [eexists; reflexivity |].
  destruct (freq_correction_of_ok f Hf) as [fc ->]. cbn [bind]. eexists. reflexivity.
Qed.

Lemma collect_skip (t : WastelandTriangulator) (s : ClientSignal) (rest : list ClientSignal) :
  registered t s = false ->
  collect_ap_distances t (s :: rest) = collect_ap_distances t rest.
Proof.
  unfold registered. intros H. cbn [collect_ap_distances].
  destruct (dict_get (ap_name s) (ap_coordinates t)); [discriminate H | reflexivity].
Qed.

Lemma collect_registered (t : WastelandTriangulator) (s : ClientSignal)
  (rest : list ClientSignal) (ap : APCoordinates) (d : R) :
  dict_get (ap_name s) (ap_coordinates t) = Some ap ->
  rssi_to_distance t (rssi s) (frequency s) = Ok d ->
  collect_ap_distances t (s :: rest) =
  let* tl := collect_ap_distances t rest in Ok ((ap, d) :: tl).
Proof. intros H1 H2. cbn [collect_ap_distances]. rewrite H1. cbn [bind]. rewrite H2. reflexivity. Qed.

Lemma collect_ok (t : WastelandTriangulator) (sigs : list ClientSignal) :
  Forall (fun s => 0 < frequency s) sigs ->
  exists ds, collect_ap_distances t sigs = Ok ds /\
             length ds = length (filter (registered t) sigs).
Proof.
  intros Hf. induction Hf as [| s sigs Hs _ [ds [Hds Hlen]]]; [exists []; split; reflexivity |].
  destruct (registered t s) eqn:Hr.
  - unfold registered in Hr.
    destruct (dict_get (ap_name s) (ap_coordinates t)) as [ap |] eqn:Hget; [| discriminate Hr].
    destruct (rssi_to_distance_total t (rssi s) (frequency s) Hs) as [d Hd].
    exists ((ap, d) :: ds). rewrite (collect_registered t s sigs ap d Hget Hd), Hds.
    cbn [bind filter length]. unfold registered at 1. rewrite Hget.
    split; [reflexivity | cbn; rewrite Hlen; reflexivity].
  - exists ds. rewrite collect_skip by exact Hr. cbn [filter]. rewrite Hr.
    split; assumption.
Qed.

Lemma trilaterate_collect (t : WastelandTriangulator) (sigs : list ClientSignal)
  (ds : list (APCoordinates * R)) :
  (2 <= length sigs)%nat ->
  collect_ap_distances t sigs = Ok ds ->
  trilaterate t sigs =
  if Nat.ltb (length ds) 2 then Ok None
  else if Nat.eqb (length ds) 2 then let* l := trilaterate_2ap ds in Ok (Some l)
  else let* l := trilaterate_multiap ds in Ok (Some l).
Proof.
  intros Hlen Hc. unfold trilaterate.
  destruct (Nat.ltb_spec (length sigs) 2); [lia |]. rewrite Hc. reflexivity.
Qed.

Lemma trilaterate_2ap_ok (ds : list (APCoordinates * R)) :
  length ds = 2%nat -> exists loc, trilaterate_2ap ds = Ok loc.
Proof.
  intros Hlen. destruct ds as [| [ap1 d1] [| [ap2 d2] [| ? ?]]]; try discriminate Hlen.
  destruct (trilaterate_2ap_cases ap1 d1 ap2 d2) as [[_ H] | [_ H]]; eexists; exact H.
Qed.

Lemma mapM_length {A B : Type} (f : A -> Result B) (l : list A) (l' : list B) :
  mapM f l = Ok l' -> length l' = length l.
Proof.
  revert l'. induction l as [| a l IH]; intros l' H; cbn in H.
  - injection H as <-. reflexivity.
  - destruct (f a) as [b | e]; cbn [bind] in H; [| discriminate H].
    destruct (mapM f l) as [bs | e]; cbn [bind] in H; [| discriminate H].
    injection H as <-. cbn. rewrite (IH bs eq_refl). reflexivity.
Qed.

Lemma mapM_residual_raise (x y : R) (l : list (APCoordinates * R)) (e : PyExc) :
  mapM (residual x y) l = Raise e -> e = ValueError.
Proof.
  induction l as [| [ap d] l IH]; cbn [mapM]; intros H; [discriminate H |].
  unfold residual at 1, py_sqrt at 1 in H.
  destruct (Rlt_dec _ 0); cbn [bind] in H; [injection H as <-; reflexivity |].
  destruct (mapM (residual x y) l) as [bs | e']; cbn [bind] in H;
    [discriminate H | injection H as <-; apply IH; reflexivity].
Qed.

(** The [try] block of the multi-anchor solve raises only the two exceptions
    its handler catches. *)
Lemma trilaterate_multiap_try_raise (l : list (APCoordinates * R)) (A : list (R * R))
  (b : list R) (e : PyExc) :
  l <> [] -> trilaterate_multiap_try l A b = Raise e ->
  e = ValueError \/ e = ZeroDivisionError.
Proof.
  intros Hl H. unfold trilaterate_multiap_try in H.
  destruct (Rlt_dec _ singular_threshold); [injection H as <-; left; reflexivity |].
  unfold py_div in H. destruct (Req_EM_T (normal_det A) 0); cbn [bind] in H;
    [injection H as <-; right; reflexivity |].
  destruct (mapM _ l) as [res | e'] eqn:Hres; cbn [bind] in H.
  2:{ injection H as <-. left. exact (mapM_residual_raise _ _ _ _ Hres). }
  apply mapM_length in Hres.
  destruct res as [| r0 res]; [destruct l; [contradiction | discriminate Hres] |].
  cbn [py_mean bind] in H.
  destruct l as [| p l]; [contradiction |]. cbn [map py_max bind] in H.
  destruct (Req_EM_T _ 0); cbn [bind] in H; [injection H as <-; right; reflexivity |].
  discriminate H.
Qed.

Lemma trilaterate_multiap_ok (l : list (APCoordinates * R)) :
  l <> [] -> exists loc, trilaterate_multiap l = Ok loc.
Proof.
  intros Hl. unfold trilaterate_multiap.
  destruct l as [| p l'] eqn:El; [contradiction |]. rewrite <- El in *.
  destruct (linear_system l) as [A b].
  destruct (trilaterate_multiap_try l A b) as [r | e] eqn:Ht.
  - cbn [try_except_value_zerodiv bind]. destruct r as [[[x y] c] er]. eexists. reflexivity.
  - destruct (trilaterate_multiap_try_raise l A b e Hl Ht) as [-> | ->];
      cbn [try_except_value_zerodiv]; rewrite trilaterate_multiap_fallback_ok by exact Hl;
      cbn [bind]; eexists; reflexivity.
Qed.

(** [trilaterate] returns normally for positive frequencies, with an estimate
    exactly when at least two observations name registered anchors. *)
Lemma trilaterate_result (t : WastelandTriangulator) (sigs : list ClientSignal) :
  Forall (fun s => 0 < frequency s) sigs ->
  exists r, trilaterate t sigs = Ok r /\
            (r <> None <-> (2 <= length (filter (registered t) sigs))%nat).
Proof.
  intros Hf. destruct (collect_ok t sigs Hf) as [ds [Hc Hlen]].
  pose proof (filter_length_le (registered t) sigs) as Hle.
  destruct (Nat.ltb_spec (length sigs) 2) as [Hlt | Hge].
  - exists None. unfold trilaterate. destruct (Nat.ltb_spec (length sigs) 2) as [_ | Hn]; [| lia].
    split; [reflexivity |]. split; [intros Hn; contradiction | lia].
  - rewrite (trilaterate_collect t sigs ds Hge Hc).
    destruct (Nat.ltb_spec (length ds) 2) as [Hds | Hds].
    + exists None. split; [reflexivity |]. split; [intros Hn; contradiction | lia].
    + destruct (Nat.eqb_spec (length ds) 2) as [H2 | H2].
      * destruct (trilaterate_2ap_ok ds H2) as [loc ->]. exists (Some loc).
        split; [reflexivity |]. split; [lia | discriminate].
      * assert (Hne : ds <> []) by (intros ->; cbn in *; lia).
        destruct (trilaterate_multiap_ok ds Hne) as [loc ->]. exists (Some loc).
        split; [reflexivity |]. split; [lia | discriminate].
Qed.

(** * A single registered anchor observed three times *)

Lemma one_ap_near_distance (ts : R) :
  rssi_to_distance one_ap_t (rssi (near_signal ts)) (frequency (near_signal ts)) = Ok 0.5.
Proof.
  rewrite rssi_to_distance_unfold. change (reference_rssi one_ap_t) with (-30).
  cbn [rssi near_signal]. destruct (Rlt_dec (-30) 0) as [_ | Hn]; [reflexivity | lra].
Qed.

Lemma single_anchor_trilaterate :
  exists loc, trilaterate one_ap_t single_anchor_signals = Ok (Some loc) /\
              confidence loc = 0.3 /\ loc_x loc = 0 /\ loc_y loc = 0.
Proof.
  set (ap := mkAP 0 0 2.5 "ap-1").
  assert (Hget : forall ts, dict_get (ap_name (near_signal ts)) (ap_coordinates one_ap_t) = Some ap)
    by reflexivity.
  assert (Hc : collect_ap_distances one_ap_t single_anchor_signals =
               Ok [(ap, 0.5); (ap, 0.5); (ap, 0.5)]).
  { unfold single_anchor_signals.
    rewrite (collect_registered _ _ _ _ _ (Hget 0) (one_ap_near_distance 0)).
    rewrite (collect_registered _ _ _ _ _ (Hget 1) (one_ap_near_distance 1)).
    rewrite (collect_registered _ _ _ _ _ (Hget 2) (one_ap_near_distance 2)).
    reflexivity. }
  assert (Hlen : (2 <= length single_anchor_signals)%nat)
    by (unfold single_anchor_signals; cbn; lia).
  rewrite (trilaterate_collect _ _ _ Hlen Hc). cbn [length Nat.ltb Nat.eqb].
  assert (Hcol : collinear [(ap, 0.5); (ap, 0.5); (ap, 0.5)]).
  { exists 0, 0. repeat constructor; exists 0; cbn; split; ring. }
  rewrite trilaterate_multiap_singular.
  - cbn [bind]. eexists. split; [reflexivity |]. cbn [confidence loc_x loc_y].
    split; [reflexivity |]. cbn [map fst ap ap_x ap_y]. rewrite !py_sum_cons, py_sum_nil.
    split; unfold Rdiv; ring.
  - discriminate.
  - rewrite collinear_normal_det by exact Hcol. rewrite Rabs_R0.
    unfold singular_threshold. lra.
Qed.

Lemma single_anchor_recent : client_recent single_anchor_signals = single_anchor_signals.
Proof.
  unfold client_recent, single_anchor_signals. cbn [map py_max timestamp near_signal fold_left].
  replace (py_max2 (py_max2 0 1) 2) with 2 by (unfold py_max2; destruct (Rlt_dec 0 1), (Rlt_dec _ 2); lra).
  unfold recent_signals. cbn [filter timestamp near_signal]. unfold R_le_b.
  destruct (Rle_dec (2 - 0) 30), (Rle_dec (2 - 1) 30), (Rle_dec (2 - 2) 30);
    first [reflexivity | exfalso; lra].
Qed.

(** * Observations of a single registered anchor *)

Lemma collect_one_anchor (t : WastelandTriangulator) (sigs : list ClientSignal)
  (name : string) (ap : APCoordinates) (ds : list (APCoordinates * R)) :
  dict_get name (ap_coordinates t) = Some ap ->
  Forall (fun s => ap_name s = name) sigs ->
  collect_ap_distances t sigs = Ok ds ->
  Forall (fun p => fst p = ap) ds.
Proof.
  intros Hget Hname. revert ds.
  induction Hname as [| s sigs Hs _ IH]; intros ds Hc; cbn [collect_ap_distances] in Hc.
  - injection Hc as <-. constructor.
  - rewrite Hs, Hget in Hc.
    destruct (rssi_to_distance t (rssi s) (frequency s)) as [d | e]; cbn [bind] in Hc;
      [| discriminate Hc].
    destruct (collect_ap_distances t sigs) as [tl | e]; cbn [bind] in Hc; [| discriminate Hc].
    injection Hc as <-. constructor; [reflexivity | apply IH; reflexivity].
Qed.

Lemma filter_registered_one_anchor (t : WastelandTriangulator) (sigs : list ClientSignal)
  (name : string) (ap : APCoordinates) :
  dict_get name (ap_coordinates t) = Some ap ->
  Forall (fun s => ap_name s = name) sigs ->
  filter (registered t) sigs = sigs.
Proof.
  intros Hget Hname. induction Hname as [| s sigs Hs _ IH]; [reflexivity |].
  cbn [filter]. unfold registered at 1. rewrite Hs, Hget, IH. reflexivity.
Qed.

Lemma py_sum_map_const {X : Type} (f : X -> R) (ds : list (X * R)) (ap : X) :
  Forall (fun p => fst p = ap) ds ->
  py_sum (map (fun p => f (fst p)) ds) = INR (length ds) * f ap.
Proof.
  intros H. induction H as [| p ds Hp _ IH].
  - unfold py_sum. cbn. ring.
  - cbn [map length]. rewrite py_sum_cons, IH, Hp, S_INR. ring.
Qed.

(** Observations that all name one registered anchor (positive
    frequencies): two of them give the coincident-anchor result, three or
    more the centroid fallback; both at the anchor's position. *)
Lemma trilaterate_one_anchor (t : WastelandTriangulator) (sigs : list ClientSignal)
  (name : string) (ap : APCoordinates) :
  Forall (fun s => 0 < frequency s) sigs ->
  dict_get name (ap_coordinates t) = Some ap ->
  Forall (fun s => ap_name s = name) sigs ->
  (length sigs = 2%nat ->
   exists loc, trilaterate t sigs = Ok (Some loc) /\ confidence loc = 0.1 /\
               loc_x loc = ap_x ap /\ loc_y loc = ap_y ap) /\
  ((3 <= length sigs)%nat -> forall ds, collect_ap_distances t sigs = Ok ds ->
   exists loc, trilaterate t sigs = Ok (Some loc) /\ confidence loc = 0.3 /\
               loc_x loc = ap_x ap /\ loc_y loc = ap_y ap /\
               error_radius loc = py_sum (map snd ds) / INR (length ds) * 0.5).
Proof.
  intros Hf Hget Hname.
  destruct (collect_ok t sigs Hf) as [ds [Hc Hlen]].
  rewrite (filter_registered_one_anchor t sigs name ap Hget Hname) in Hlen.
  pose proof (collect_one_anchor t sigs name ap ds Hget Hname Hc) as Hds.
  split.
  - intros Hn. rewrite (trilaterate_collect t sigs ds ltac:(lia) Hc).
    replace (Nat.ltb (length ds) 2) with false by (symmetry; apply Nat.ltb_ge; lia).
    replace (Nat.eqb (length ds) 2) with true by (symmetry; apply Nat.eqb_eq; lia).
    destruct ds as [| [a1 d1] [| [a2 d2] [| ? ?]]]; cbn [length] in Hlen; try lia.
    inversion Hds as [| ? ? Ha1 Hds']; subst. inversion Hds' as [| ? ? Ha2 _]; subst.
    cbn [fst] in *; subst.
    destruct (trilaterate_2ap_cases a1 d1 a1 d2) as [[_ E] | [Hd _]].
    + rewrite E. cbn [bind]. eexists. split; [reflexivity |]. cbn. repeat split.
    + exfalso. apply Hd.
      replace ((ap_x a1 - ap_x a1) ^ 2 + (ap_y a1 - ap_y a1) ^ 2) with 0 by ring.
      apply sqrt_0.
  - intros Hn ds' Hc'. rewrite Hc in Hc'. injection Hc' as <-.
    rewrite (trilaterate_collect t sigs ds ltac:(lia) Hc).
    replace (Nat.ltb (length ds) 2) with false by (symmetry; apply Nat.ltb_ge; lia).
    replace (Nat.eqb (length ds) 2) with false by (symmetry; apply Nat.eqb_neq; lia).
    assert (Hne : ds <> []) by (intros ->; cbn in Hlen; lia).
    assert (Hcol : collinear ds).
    { destruct ds as [| [a0 d0] rest]; [contradiction |].
      apply Forall_cons_iff in Hds as [Ha0 Hrest]. cbn [fst] in Ha0. subst a0.
      exists 0, 0. eapply Forall_impl; [| exact Hrest].
      intros p Hp. exists 0. rewrite Hp. split; ring. }
    rewrite trilaterate_multiap_singular.
    + cbn [bind]. eexists. split; [reflexivity |]. cbn [confidence loc_x loc_y error_radius].
      assert (Hn0 : 0 < INR (length ds)) by (apply lt_0_INR; lia).
      rewrite (py_sum_map_const ap_x ds ap Hds), (py_sum_map_const ap_y ds ap Hds).
      repeat split; [field; lra | field; lra].
    + exact Hne.
    + rewrite collinear_normal_det by exact Hcol. rewrite Rabs_R0.
      unfold singular_threshold. lra.
Qed.

(** An error of the per-client loop is an error of the body for one group. *)
Lemma track_loop_raise (t : WastelandTriangulator) (groups : list (string * list ClientSignal))
  (acc : list (string * LocationEstimate)) (e : PyExc) :
  NoDup (map fst groups) ->
  track_loop t groups acc = Raise e ->
  exists mac g, dict_get mac groups = Some g /\ locate_client t g = Raise e.
Proof.
  revert acc. induction groups as [| [m g'] rest IH]; intros acc Hnd H;
    cbn [track_loop] in H; [discriminate H |].
  inversion Hnd as [| ? ? Hnin Hnd']; subst.
  destruct (locate_client t g') as [kept | e'] eqn:Hl; cbn [bind] in H.
  - destruct (IH _ Hnd' H) as [mac [g [Hg Hlc]]]. exists mac, g. split; [| exact Hlc].
    cbn [dict_get]. destruct (String.eqb_spec mac m) as [-> | _]; [| exact Hg].
    exfalso. destruct (in_dec string_dec m (map fst rest)) as [Hin | Hnin'];
      [exact (Hnin Hin) |].
    rewrite dict_get_none in Hg by exact Hnin'. discriminate Hg.
  - injection H as ->. exists m, g'. cbn [dict_get]. rewrite String.eqb_refl.
    split; [reflexivity | exact Hl].
Qed.

(** [track_clients] raises only with an error of the solver on the recent
    observations of one client. *)
Lemma track_clients_raise (t : WastelandTriangulator) (all_signals : list ClientSignal)
  (e : PyExc) :
  track_clients t all_signals = Raise e ->
  exists mac g, dict_get mac (group_by_mac all_signals) = Some g /\
                trilaterate t (client_recent g) = Raise e.
Proof.
  intros H. destruct (group_by_mac_ok all_signals) as [Hnd Hne].
  destruct (track_loop_raise t _ [] e Hnd H) as [mac [g [Hg Hlc]]].
  exists mac, g. split; [exact Hg |].
  rewrite locate_client_eq in Hlc by exact (Hne _ _ Hg).
  destruct (trilaterate t (client_recent g)) as [r | e']; cbn [bind] in Hlc;
    [discriminate Hlc | exact Hlc].
Qed.

Lemma track_clients_ok_of (t : WastelandTriangulator) (all_signals : list ClientSignal) :
  (forall mac g, dict_get mac (group_by_mac all_signals) = Some g ->
     exists r, trilaterate t (client_recent g) = Ok r) ->
  exists out, track_clients t all_signals = Ok out.
Proof.
  intros Hall. destruct (track_clients t all_signals) as [out | e] eqn:Ht;
    [exists out; reflexivity |].
  destruct (track_clients_raise t all_signals e Ht) as [mac [g [Hg Hr]]].
  destruct (Hall mac g Hg) as [r Hr']. rewrite Hr in Hr'. discriminate Hr'.
Qed.

(** * Concrete inputs with one registered AP *)

Lemma one_ap_reference_distance (ts : R) :
  rssi_to_distance one_ap_t (rssi (reference_signal ts)) (frequency (reference_signal ts))
  = Ok 1.
Proof.
  rewrite rssi_to_distance_unfold. change (reference_rssi one_ap_t) with (-30).
  cbn [rssi frequency reference_signal].
  destruct (Rlt_dec (-30) (-30)) as [Hn | _]; [lra |].
  unfold freq_correction_of. destruct (Req_EM_T 2.4 2.4) as [_ | Hn]; [| contradiction].
  cbn [bind]. change (reference_distance one_ap_t) with 1.0.
  replace ((-30 - (-30 - 0)) / (10 * path_loss_exponent one_ap_t)) with 0
    by (unfold Rdiv; ring).
  rewrite Rpower_O by lra. unfold py_min2, py_max2.
  destruct (Rlt_dec (1.0 * 1) 100.0); destruct (Rlt_dec 1.0 _); f_equal; lra.
Qed.

Lemma coincident_pair_recent : client_recent coincident_pair_signals = coincident_pair_signals.
Proof.
  unfold client_recent, coincident_pair_signals. cbn [map py_max timestamp near_signal fold_left].
  replace (py_max2 0 1) with 1 by (unfold py_max2; destruct (Rlt_dec 0 1); lra).
  unfold recent_signals. cbn [filter timestamp near_signal]. unfold R_le_b.
  destruct (Rle_dec (1 - 0) 30), (Rle_dec (1 - 1) 30); first [reflexivity | exfalso; lra].
Qed.

Lemma reference_recent :
  client_recent [reference_signal 0; reference_signal 1; reference_signal 2] =
  [reference_signal 0; reference_signal 1; reference_signal 2].
Proof.
  unfold client_recent. cbn [map py_max timestamp reference_signal fold_left].
  replace (py_max2 (py_max2 0 1) 2) with 2 by (unfold py_max2; destruct (Rlt_dec 0 1), (Rlt_dec _ 2); lra).
  unfold recent_signals. cbn [filter timestamp reference_signal]. unfold R_le_b.
  destruct (Rle_dec (2 - 0) 30), (Rle_dec (2 - 1) 30), (Rle_dec (2 - 2) 30);
    first [reflexivity | exfalso; lra].
Qed.

Lemma coincident_pair_trilaterate :
  exists loc, trilaterate one_ap_t coincident_pair_signals = Ok (Some loc) /\
              confidence loc = 0.1.
Proof.
  destruct (trilaterate_one_anchor one_ap_t coincident_pair_signals "ap-1" (mkAP 0 0 2.5 "ap-1")
              ltac:(repeat constructor; cbn; lra) eq_refl ltac:(repeat constructor))
    as [H2 _].
  destruct (H2 eq_refl) as [loc [H [Hc _]]]. exists loc. split; assumption.
Qed.

Lemma one_ap_three_readings (s0 s1 s2 : ClientSignal) (d : R) :
  Forall (fun s => ap_name s = "ap-1"%string /\ 0 < frequency s /\
                   rssi_to_distance one_ap_t (rssi s) (frequency s) = Ok d) [s0; s1; s2] ->
  exists loc, trilaterate one_ap_t [s0; s1; s2] = Ok (Some loc) /\
              confidence loc = 0.3 /\ error_radius loc = d * 0.5.
Proof.
  intros H. set (ap := mkAP 0 0 2.5 "ap-1").
  assert (Hget : dict_get "ap-1" (ap_coordinates one_ap_t) = Some ap) by reflexivity.
  inversion H as [| ? ? [Hn0 [Hf0 Hd0]] H1]; subst.
  inversion H1 as [| ? ? [Hn1 [Hf1 Hd1]] H2]; subst.
  inversion H2 as [| ? ? [Hn2 [Hf2 Hd2]] _]; subst.
  assert (Hc : collect_ap_distances one_ap_t [s0; s1; s2] = Ok [(ap, d); (ap, d); (ap, d)]).
  { rewrite <- Hn0 in Hget at 1.
    rewrite (collect_registered _ _ _ _ _ Hget Hd0). rewrite Hn0 in Hget.
    rewrite <- Hn1 in Hget at 1.
    rewrite (collect_registered _ _ _ _ _ Hget Hd1). rewrite Hn1 in Hget.
    rewrite <- Hn2 in Hget at 1.
    rewrite (collect_registered _ _ _ _ _ Hget Hd2). reflexivity. }
  destruct (trilaterate_one_anchor one_ap_t [s0; s1; s2] "ap-1" ap
              ltac:(repeat constructor; assumption) Hget ltac:(repeat constructor; assumption))
    as [_ H3].
  destruct (H3 ltac:(cbn; lia) _ Hc) as [loc [Ht [Hconf [_ [_ Her]]]]].
  exists loc. split; [exact Ht |]. split; [exact Hconf |]. rewrite Her.
  cbn [map snd length]. rewrite !py_sum_cons, py_sum_nil. cbn. field.
Qed.

Lemma single_anchor_readings :
  exists loc, trilaterate one_ap_t single_anchor_signals = Ok (Some loc) /\
              confidence loc = 0.3 /\ error_radius loc = 0.25.
Proof.
  destruct (one_ap_three_readings (near_signal 0) (near_signal 1) (near_signal 2) 0.5)
    as [loc [H [Hc He]]].
  - repeat constructor; try (cbn; lra); apply one_ap_near_distance.
  - exists loc. split; [exact H |]. split; [exact Hc | rewrite He; lra].
Qed.

Lemma reference_readings :
  exists loc, trilaterate one_ap_t [reference_signal 0; reference_signal 1; reference_signal 2]
              = Ok (Some loc) /\ confidence loc = 0.3 /\ error_radius loc = 0.5.
Proof.
  destruct (one_ap_three_readings (reference_signal 0) (reference_signal 1)
              (reference_signal 2) 1) as [loc [H [Hc He]]].
  - repeat constructor; try (cbn; lra); apply one_ap_reference_distance.
  - exists loc. split; [exact H |]. split; [exact Hc | rewrite He; lra].
Qed.

(** The two clients of [shared_prefix_signals] are both reported, the first
    from [single_anchor_signals] (error radius 0.25), the second from the
    reference readings (error radius 0.5). *)
Lemma shared_prefix_track :
  exists loc1 loc2,
    track_clients one_ap_t shared_prefix_signals =
      Ok [("aa:bb:cc:dd:ee:01"%string, loc1); ("aa:bb:cc:dd:ee:02"%string, loc2)] /\
    confidence loc1 = 0.3 /\ error_radius loc1 = 0.25 /\
    confidence loc2 = 0.3 /\ error_radius loc2 = 0.5.
Proof.
  unfold track_clients.
  replace (group_by_mac shared_prefix_signals)
    with [("aa:bb:cc:dd:ee:01"%string, single_anchor_signals);
          ("aa:bb:cc:dd:ee:02"%string,
           [reference_signal 0; reference_signal 1; reference_signal 2])] by reflexivity.
  cbn [track_loop]. rewrite locate_client_eq by discriminate.
  rewrite single_anchor_recent.
  destruct single_anchor_readings as [loc1 [H1 [Hc1 He1]]]. rewrite H1.
  cbn [bind keep_confident].
  destruct (Rlt_dec 0.1 (confidence loc1)) as [_ | Hn]; [| rewrite Hc1 in Hn; lra].
  cbn [track_loop]. rewrite locate_client_eq by discriminate.
  rewrite reference_recent.
  destruct reference_readings as [loc2 [H2 [Hc2 He2]]]. rewrite H2.
  cbn [bind keep_confident track_loop].
  destruct (Rlt_dec 0.1 (confidence loc2)) as [_ | Hn]; [| rewrite Hc2 in Hn; lra].
  exists loc1, loc2. split; [reflexivity |].
  repeat split; assumption.
Qed.

(** * Claims on [trilaterate] and [track_clients] *)

(** C2 (as stated, refuted): three observations that all name the same single
    registered anchor produce a LocationEstimate (the centroid fallback, with
    confidence 0.3). *)
Lemma trilaterate_single_anchor_counterexample :
  Forall (fun s => ap_name s = "ap-1"%string) single_anchor_signals /\
  exists loc, trilaterate one_ap_t single_anchor_signals = Ok (Some loc) /\
              confidence loc = 0.3.
Proof.
  split; [repeat constructor |].
  destruct single_anchor_trilaterate as [loc [H [Hc _]]]. exists loc. split; assumption.
Qed.

(** C2 (amended): for observations with positive frequencies, [trilaterate]
    produces a LocationEstimate exactly when at least two of the observations
    name registered anchors, repeated observations of one anchor counted
    separately. Observations that all name one registered anchor do produce an
    estimate, at that anchor's position: the coincident-anchor result
    (confidence 0.1) for two of them, the centroid fallback (confidence 0.3)
    for three or more. *)
Theorem trilaterate_estimate_iff_two_registered (t : WastelandTriangulator)
  (sigs : list ClientSignal) :
  Forall (fun s => 0 < frequency s) sigs ->
  ((exists loc, trilaterate t sigs = Ok (Some loc)) <->
   (2 <= length (filter (registered t) sigs))%nat) /\
  (forall name ap, dict_get name (ap_coordinates t) = Some ap ->
     Forall (fun s => ap_name s = name) sigs ->
     (length sigs = 2%nat ->
      exists loc, trilaterate t sigs = Ok (Some loc) /\ confidence loc = 0.1 /\
                  loc_x loc = ap_x ap /\ loc_y loc = ap_y ap) /\
     ((3 <= length sigs)%nat ->
      exists loc, trilaterate t sigs = Ok (Some loc) /\ confidence loc = 0.3 /\
                  loc_x loc = ap_x ap /\ loc_y loc = ap_y ap)).
Proof.
  intros Hf. split.
  - destruct (trilaterate_result t sigs Hf) as [r [Hr Hiff]].
    rewrite Hr. split.
    + intros [loc H]. injection H as ->. apply Hiff. discriminate.
    + intros H. apply Hiff in H. destruct r as [loc |]; [exists loc; reflexivity | contradiction].
  - intros name ap Hget Hname.
    destruct (trilaterate_one_anchor t sigs name ap Hf Hget Hname) as [H2 H3].
    split; [exact H2 |].
    intros Hn. destruct (collect_ok t sigs Hf) as [ds [Hc _]].
    destruct (H3 Hn ds Hc) as [loc [H [Hconf [Hx [Hy _]]]]].
    exists loc. repeat split; assumption.
Qed.

Lemma trilaterate_estimate_iff_two_registered_witness :
  (2 <= length (filter (registered one_ap_t) single_anchor_signals))%nat /\
  (exists loc, trilaterate one_ap_t coincident_pair_signals = Ok (Some loc) /\
               confidence loc = 0.1 /\ loc_x loc = 0 /\ loc_y loc = 0) /\
  (exists loc, trilaterate one_ap_t single_anchor_signals = Ok (Some loc) /\
               confidence loc = 0.3 /\ loc_x loc = 0 /\ loc_y loc = 0).
Proof.
  assert (Hf : Forall (fun s => 0 < frequency s) single_anchor_signals)
    by (repeat constructor; cbn; lra).
  assert (Hf2 : Forall (fun s => 0 < frequency s) coincident_pair_signals)
    by (repeat constructor; cbn; lra).
  destruct (trilaterate_estimate_iff_two_registered one_ap_t single_anchor_signals Hf)
    as [Hiff Hone].
  destruct (trilaterate_estimate_iff_two_registered one_ap_t coincident_pair_signals Hf2)
    as [_ Hone2].
  split; [| split].
  - apply Hiff. destruct (proj2 (Hone "ap-1"%string (mkAP 0 0 2.5 "ap-1") eq_refl
                                   ltac:(repeat constructor)) ltac:(cbn; lia))
      as [loc [H _]].
    exists loc. exact H.
  - exact (proj1 (Hone2 "ap-1"%string (mkAP 0 0 2.5 "ap-1") eq_refl
                    ltac:(repeat constructor)) eq_refl).
  - exact (proj2 (Hone "ap-1"%string (mkAP 0 0 2.5 "ap-1") eq_refl
                    ltac:(repeat constructor)) ltac:(cbn; lia)).
Defined.

(** C7: an observation naming an unregistered anchor is skipped without
    raising; with fewer than two observations naming registered anchors (and
    positive frequencies), [trilaterate] returns no estimate, and
    [track_clients] leaves a client out of its mapping when fewer than two of
    the observations passed to the solver name registered anchors. *)
Theorem trilaterate_skips_unregistered (t : WastelandTriangulator) :
  (forall s rest, registered t s = false ->
     collect_ap_distances t (s :: rest) = collect_ap_distances t rest) /\
  (forall sigs, Forall (fun s => 0 < frequency s) sigs ->
     (length (filter (registered t) sigs) < 2)%nat -> trilaterate t sigs = Ok None) /\
  (forall all_signals out mac g,
     track_clients t all_signals = Ok out ->
     dict_get mac (group_by_mac all_signals) = Some g ->
     Forall (fun s => 0 < frequency s) (client_recent g) ->
     (length (filter (registered t) (client_recent g)) < 2)%nat ->
     dict_get mac out = None).
Proof.
  assert (Hnone : forall sigs, Forall (fun s => 0 < frequency s) sigs ->
            (length (filter (registered t) sigs) < 2)%nat -> trilaterate t sigs = Ok None).
  { intros sigs Hf Hlt. destruct (trilaterate_result t sigs Hf) as [r [Hr Hiff]].
    rewrite Hr. destruct r as [loc |]; [| reflexivity].
    exfalso. assert (H2 : Some loc <> None) by discriminate. apply Hiff in H2. lia. }
  split; [| split].
  - intros s rest Hr. apply collect_skip. exact Hr.
  - exact Hnone.
  - intros all_signals out mac g Htrack Hg Hf Hlt.
    destruct (proj1 (track_clients_lookup t all_signals out mac Htrack) g Hg) as [r [Hr Hout]].
    rewrite (Hnone _ Hf Hlt) in Hr. injection Hr as <-. exact Hout.
Qed.

Lemma trilaterate_skips_unregistered_witness :
  registered one_ap_t unknown_ap_signal = false /\
  collect_ap_distances one_ap_t [unknown_ap_signal; near_signal 0] =
  collect_ap_distances one_ap_t [near_signal 0] /\
  trilaterate one_ap_t [unknown_ap_signal; near_signal 0] = Ok None.
Proof.
  assert (Hr : registered one_ap_t unknown_ap_signal = false) by reflexivity.
  destruct (trilaterate_skips_unregistered one_ap_t) as [Hskip [Hnone _]].
  split; [exact Hr |]. split; [exact (Hskip _ _ Hr) |].
  apply Hnone; [repeat constructor; cbn; lra | cbn; lia].
Defined.

Lemma single_anchor_track :
  exists loc, track_clients one_ap_t single_anchor_signals =
              Ok [("aa:bb:cc:dd:ee:01"%string, loc)] /\ confidence loc = 0.3.
Proof.
  unfold track_clients.
  replace (group_by_mac single_anchor_signals)
    with [("aa:bb:cc:dd:ee:01"%string, single_anchor_signals)] by reflexivity.
  cbn [track_loop]. rewrite locate_client_eq by discriminate.
  rewrite single_anchor_recent.
  destruct single_anchor_trilaterate as [loc [H [Hc _]]]. rewrite H.
  cbn [bind keep_confident]. destruct (Rlt_dec 0.1 (confidence loc)) as [_ | Hn];
    [| rewrite Hc in Hn; lra].
  exists loc. split; [reflexivity | exact Hc].
Qed.

(** C8: for every client of a [track_clients] call, the client appears in
    the returned mapping exactly when the solver, run on that client's recent
    observations, produced an estimate with confidence strictly above 0.1,
    and then with that estimate; estimates with confidence at most 0.1 are
    omitted, not reported as errors: [track_clients] raises only when the
    solver itself raises for some client, so it returns a mapping whenever
    the solver returns (an estimate or none) for every client. Identifiers
    with no observation are absent. *)
Theorem track_clients_confidence_filter (t : WastelandTriangulator)
  (all_signals : list ClientSignal) :
  (forall e, track_clients t all_signals = Raise e ->
     exists mac g, dict_get mac (group_by_mac all_signals) = Some g /\
                   trilaterate t (client_recent g) = Raise e) /\
  ((forall mac g, dict_get mac (group_by_mac all_signals) = Some g ->
      exists r, trilaterate t (client_recent g) = Ok r) ->
   exists out, track_clients t all_signals = Ok out) /\
  (forall out mac, track_clients t all_signals = Ok out ->
   (forall g, dict_get mac (group_by_mac all_signals) = Some g ->
      exists r, trilaterate t (client_recent g) = Ok r /\
        (forall loc, dict_get mac out = Some loc <-> r = Some loc /\ 0.1 < confidence loc)) /\
   (dict_get mac (group_by_mac all_signals) = None -> dict_get mac out = None)).
Proof.
  split; [apply track_clients_raise |]. split; [apply track_clients_ok_of |].
  intros out mac Htrack.
  destruct (track_clients_lookup t all_signals out mac Htrack) as [H1 H2].
  split; [| exact H2].
  intros g Hg. destruct (H1 g Hg) as [r [Hr Hout]]. exists r. split; [exact Hr |].
  intros loc. rewrite Hout. unfold keep_confident.
  destruct r as [l |].
  - destruct (Rlt_dec 0.1 (confidence l)) as [Hc | Hc]; split.
    + intros H. injection H as <-. split; [reflexivity | exact Hc].
    + intros [H _]. exact H.
    + intros H. discriminate H.
    + intros [H Hl]. injection H as <-. contradiction.
  - split; [intros H; discriminate H | intros [H _]; discriminate H].
Qed.

Lemma track_clients_confidence_filter_witness :
  exists out loc,
    track_clients one_ap_t coincident_pair_signals = Ok out /\
    trilaterate one_ap_t (client_recent coincident_pair_signals) = Ok (Some loc) /\
    confidence loc = 0.1 /\
    dict_get "aa:bb:cc:dd:ee:01" out = None.
Proof.
  destruct coincident_pair_trilaterate as [loc [Hloc Hc]].
  assert (Hgroups : group_by_mac coincident_pair_signals =
                    [("aa:bb:cc:dd:ee:01"%string, coincident_pair_signals)]) by reflexivity.
  destruct (track_clients_confidence_filter one_ap_t coincident_pair_signals)
    as [_ [Hok Hfilter]].
  destruct Hok as [out Hout].
  { intros mac g Hg. rewrite Hgroups in Hg. cbn [dict_get] in Hg.
    destruct (String.eqb mac "aa:bb:cc:dd:ee:01"); [| discriminate Hg].
    injection Hg as <-. rewrite coincident_pair_recent. exists (Some loc). exact Hloc. }
  exists out, loc. split; [exact Hout |]. rewrite coincident_pair_recent.
  split; [exact Hloc |]. split; [exact Hc |].
  destruct (Hfilter out "aa:bb:cc:dd:ee:01"%string Hout) as [Hg _].
  rewrite Hgroups in Hg. cbn [dict_get] in Hg. rewrite String.eqb_refl in Hg.
  destruct (Hg coincident_pair_signals eq_refl) as [r [Hr Hiff]].
  rewrite coincident_pair_recent, Hloc in Hr. injection Hr as <-.
  destruct (dict_get "aa:bb:cc:dd:ee:01" out) as [l |] eqn:Hl; [| reflexivity].
  destruct (proj1 (Hiff l) eq_refl) as [Hs Hlt]. injection Hs as <-.
  rewrite Hc in Hlt. lra.
Defined.

Lemma aged_recent (r f T : R) :
  client_recent [aged_signal r f T 0; aged_signal r f T 10; aged_signal r f T 45] =
  [aged_signal r f T 0; aged_signal r f T 10].
Proof.
  unfold client_recent. cbn [map py_max timestamp aged_signal fold_left].
  replace (py_max2 (py_max2 (T - 0) (T - 10)) (T - 45)) with (T - 0)
    by (unfold py_max2; destruct (Rlt_dec (T - 0) (T - 10)), (Rlt_dec _ (T - 45)); lra).
  unfold recent_signals. cbn [filter timestamp aged_signal]. unfold R_le_b.
  destruct (Rle_dec (T - 0 - (T - 0)) 30), (Rle_dec (T - 0 - (T - 10)) 30),
    (Rle_dec (T - 0 - (T - 45)) 30); first [reflexivity | exfalso; lra].
Qed.

(** C6: [track_clients] takes the newest timestamp of each client's group
    and passes to the solver exactly the observations of the group (in their
    order) whose timestamp is within 30 seconds of it; for one client observed
    at T, T-10 and T-45, the solver receives the T and T-10 observations only. *)
Theorem track_recency_window (t : WastelandTriangulator) :
  (forall g latest, py_max (map timestamp g) = Ok latest ->
     (In latest (map timestamp g) /\ Forall (fun s => timestamp s <= latest) g) /\
     client_recent g = filter (fun s => R_le_b (latest - timestamp s) 30) g /\
     (forall s, In s (client_recent g) <-> In s g /\ latest - timestamp s <= 30)) /\
  (forall all_signals out mac g,
     track_clients t all_signals = Ok out ->
     dict_get mac (group_by_mac all_signals) = Some g ->
     exists r, trilaterate t (client_recent g) = Ok r /\ dict_get mac out = keep_confident r) /\
  (forall r f T out,
     let all_signals := [aged_signal r f T 0; aged_signal r f T 10; aged_signal r f T 45] in
     group_by_mac all_signals = [("aa:bb:cc:dd:ee:01"%string, all_signals)] /\
     client_recent all_signals = [aged_signal r f T 0; aged_signal r f T 10] /\
     (track_clients t all_signals = Ok out ->
      exists res, trilaterate t [aged_signal r f T 0; aged_signal r f T 10] = Ok res /\
                  dict_get "aa:bb:cc:dd:ee:01" out = keep_confident res)).
Proof.
  split; [| split].
  - intros g latest Hm. destruct (py_max_bounds _ _ Hm) as [Hin Hall].
    split; [split; [exact Hin | rewrite Forall_map in Hall; exact Hall] |].
    unfold client_recent. rewrite Hm. split; [reflexivity |].
    intros s. apply recent_signals_In.
  - intros all_signals out mac g Htrack Hg.
    exact (proj1 (track_clients_lookup t all_signals out mac Htrack) g Hg).
  - intros r f T out all_signals.
    assert (Hgroup : group_by_mac all_signals =
                     [("aa:bb:cc:dd:ee:01"%string, all_signals)]) by reflexivity.
    split; [exact Hgroup |]. split; [apply aged_recent |].
    intros Htrack.
    destruct (proj1 (track_clients_lookup t all_signals out "aa:bb:cc:dd:ee:01" Htrack) all_signals)
      as [res [Hres Hout]].
    + rewrite Hgroup. reflexivity.
    + exists res. unfold all_signals in Hres. rewrite aged_recent in Hres.
      split; assumption.
Qed.

Lemma track_recency_window_witness :
  py_max (map timestamp [aged_signal (-50) 2.4 100 0; aged_signal (-50) 2.4 100 10;
                         aged_signal (-50) 2.4 100 45]) = Ok (100 - 0) /\
  client_recent [aged_signal (-50) 2.4 100 0; aged_signal (-50) 2.4 100 10;
                 aged_signal (-50) 2.4 100 45] =
  [aged_signal (-50) 2.4 100 0; aged_signal (-50) 2.4 100 10].
Proof.
  assert (Hm : py_max (map timestamp [aged_signal (-50) 2.4 100 0; aged_signal (-50) 2.4 100 10;
                         aged_signal (-50) 2.4 100 45]) = Ok (100 - 0)).
  { cbn [map py_max timestamp aged_signal fold_left]. f_equal.
    unfold py_max2. destruct (Rlt_dec (100 - 0) (100 - 10)), (Rlt_dec _ (100 - 45)); lra. }
  split; [exact Hm |].
  exact (proj1 (proj2 (proj2 (proj2 (track_recency_window one_ap_t)) (-50) 2.4 100 []))).
Defined.

(** * Further properties of the triangulator *)

(** ** Registering access points *)

(** [add_ap] stores the AP under its name (replacing an earlier entry of the
    same name), leaves every other entry as it was, and does not change the
    path-loss model. *)
Theorem add_ap_lookup (t : WastelandTriangulator) (name : string) (x y z : R) :
  dict_get name (ap_coordinates (add_ap t name x y z)) = Some (mkAP x y z name) /\
  (forall other, other <> name ->
     dict_get other (ap_coordinates (add_ap t name x y z)) =
     dict_get other (ap_coordinates t)) /\
  (forall r f, rssi_to_distance (add_ap t name x y z) r f = rssi_to_distance t r f).
Proof.
  split; [| split].
  - apply dict_get_set_eq.
  - intros other Hne. apply dict_get_set_neq. exact Hne.
  - intros r f. reflexivity.
Qed.

(** ** Errors and shape of the path-loss model *)

Lemma rssi_to_distance_raise_iff (t : WastelandTriangulator) (r f : R) (e : PyExc) :
  rssi_to_distance t r f = Raise e <->
  e = ValueError /\ r <= reference_rssi t /\ f <= 0.
Proof.
  rewrite rssi_to_distance_unfold.
  destruct (Rlt_dec (reference_rssi t) r) as [Hlt | Hge].
  - split; [intros H; discriminate H | intros [_ [H _]]; lra].
  - destruct (Rle_dec f 0) as [Hf | Hf].
    + unfold freq_correction_of.
      destruct (Req_EM_T f 2.4) as [H24 | _]; [lra |].
      unfold py_log10. destruct (Rle_dec (f / 2.4) 0) as [_ | Hn].
      * cbn [bind]. split; [intros H; injection H as <-; split; [reflexivity | split; lra] |].
        intros [-> _]. reflexivity.
      * exfalso. apply Hn. unfold Rdiv.
        assert (0 < / 2.4) by (apply Rinv_0_lt_compat; lra). nra.
    + destruct (freq_correction_of_ok f) as [fc Hfc]; [lra |].
      rewrite Hfc. cbn [bind]. split; [intros H; discriminate H | intros [_ [_ H]]; lra].
Qed.

(** [rssi_to_distance] raises exactly when the reading is not stronger than
    the reference RSSI and the frequency is not positive, and the exception
    is then ValueError (from [math.log10]). *)
Theorem rssi_to_distance_raises_iff (t : WastelandTriangulator) (r f : R) (e : PyExc) :
  rssi_to_distance t r f = Raise e <->
  e = ValueError /\ r <= reference_rssi t /\ f <= 0.
Proof. apply rssi_to_distance_raise_iff. Qed.

Lemma freq_correction_of_log (f : R) :
  0 < f -> freq_correction_of f = Ok (20 * (ln (f / 2.4) / ln 10)).
Proof.
  intros Hf. unfold freq_correction_of.
  destruct (Req_EM_T f 2.4) as [-> | _].
  - replace (2.4 / 2.4) with 1 by (unfold Rdiv; symmetry; apply Rinv_r; lra). rewrite ln_1. f_equal. unfold Rdiv. ring.
  - unfold py_log10. destruct (Rle_dec (f / 2.4) 0) as [Hle | _]; [| reflexivity].
    exfalso. assert (0 < f / 2.4) by (apply Rdiv_lt_0_compat; lra). lra.
Qed.

Lemma ln_le_pos (a b : R) : 0 < a -> a <= b -> ln a <= ln b.
Proof.
  intros Ha Hab. destruct (Req_dec a b) as [-> | Hne]; [lra |].
  left. apply ln_increasing; lra.
Qed.

(** For a fixed reading, the estimated distance does not decrease as the
    frequency grows (positive frequencies; higher frequencies attenuate more). *)
Theorem rssi_to_distance_frequency_monotone (env : string) (r f1 f2 : R) :
  0 < f1 -> f1 <= f2 ->
  exists d1 d2, rssi_to_distance (new_triangulator env) r f1 = Ok d1 /\
                rssi_to_distance (new_triangulator env) r f2 = Ok d2 /\ d1 <= d2.
Proof.
  intros Hf1 Hf12.
  set (t := new_triangulator env).
  destruct (new_triangulator_params env) as [Hd Hn]. fold t in Hd, Hn.
  rewrite !rssi_to_distance_unfold.
  destruct (Rlt_dec (reference_rssi t) r) as [Hlt | Hge].
  - exists 0.5, 0.5. split; [reflexivity | split; [reflexivity | lra]].
  - rewrite !freq_correction_of_log by lra. cbn [bind].
    eexists; eexists; split; [reflexivity | split; [reflexivity |]].
    apply clamp_le. rewrite Hd, !Rmult_1_l. apply Rpower_10_le.
    unfold Rdiv. apply Rmult_le_compat_r.
    + left. apply Rinv_0_lt_compat. lra.
    + assert (Hl : ln (f1 / 2.4) <= ln (f2 / 2.4)).
      { apply ln_le_pos; [apply Rdiv_lt_0_compat; lra |].
        unfold Rdiv. apply Rmult_le_compat_r; [left; apply Rinv_0_lt_compat; lra | exact Hf12]. }
      assert (Hi : 0 < / ln 10) by (apply Rinv_0_lt_compat, ln_10_pos).
      assert (ln (f1 / 2.4) * / ln 10 <= ln (f2 / 2.4) * / ln 10)
        by (apply Rmult_le_compat_r; lra).
      lra.
Qed.

Lemma rssi_to_distance_frequency_monotone_witness :
  0 < 2.4 /\ 2.4 <= 5 /\
  exists d1 d2, rssi_to_distance (new_triangulator "indoor") (-60) 2.4 = Ok d1 /\
                rssi_to_distance (new_triangulator "indoor") (-60) 5 = Ok d2 /\ d1 <= d2.
Proof.
  split; [lra | split; [lra |]].
  apply (rssi_to_distance_frequency_monotone "indoor" (-60) 2.4 5); lra.
Defined.

Lemma Rpower_10_lt (a b : R) : a < b -> Rpower 10 a < Rpower 10 b.
Proof.
  intros H. unfold Rpower. apply exp_increasing. pose proof ln_10_pos. nra.
Qed.

Lemma Rpower_10_2 : Rpower 10 2 = 100.
Proof.
  replace 2 with (INR 2) by (cbn; ring). rewrite Rpower_pow by lra. ring.
Qed.

(** At 2.4 GHz, for each profile built by [__init__], [rssi_to_distance]
    returns the 100 m cap exactly when the reading is at or below
    [reference_rssi - 20 * path_loss_exponent] (-80 dBm indoor, -100 dBm
    outdoor, -95 dBm otherwise), and returns exactly 1 m only for a reading
    equal to the reference RSSI. *)
Theorem rssi_to_distance_caps (env : string) (r : R) :
  let t := new_triangulator env in
  (rssi_to_distance t r 2.4 = Ok 100 <-> r <= reference_rssi t - 20 * path_loss_exponent t) /\
  (rssi_to_distance t r 2.4 = Ok 1 <-> r = reference_rssi t).
Proof.
  intros t. destruct (new_triangulator_params env) as [Hd Hn]. fold t in Hd, Hn.
  rewrite rssi_to_distance_unfold.
  destruct (Rlt_dec (reference_rssi t) r) as [Hlt | Hge].
  - split; split; intros H.
    + injection H as H. lra.
    + exfalso. assert (0 < 20 * path_loss_exponent t) by lra. lra.
    + injection H as H. lra.
    + lra.
  - rewrite freq_correction_of_log by lra. cbn [bind].
    replace (2.4 / 2.4) with 1 by (unfold Rdiv; symmetry; apply Rinv_r; lra). rewrite ln_1, Hd, Rmult_1_l.
    replace (reference_rssi t - (r - 20 * (0 / ln 10))) with (reference_rssi t - r)
      by (field; apply Rgt_not_eq, ln_10_pos).
    set (p := (reference_rssi t - r) / (10 * path_loss_exponent t)).
    assert (Hp0 : 0 <= p).
    { unfold p, Rdiv. apply Rmult_le_pos; [lra | left; apply Rinv_0_lt_compat; lra]. }
    assert (Hp2 : 2 <= p <-> r <= reference_rssi t - 20 * path_loss_exponent t).
    { unfold p. split; intros H.
      - apply Rmult_le_compat_r with (r := 10 * path_loss_exponent t) in H; [| lra].
        unfold Rdiv in H. rewrite Rmult_assoc, Rinv_l, Rmult_1_r in H by lra. lra.
      - apply Rmult_le_reg_r with (r := 10 * path_loss_exponent t); [lra |].
        unfold Rdiv. rewrite Rmult_assoc, Rinv_l, Rmult_1_r by lra. lra. }
    assert (Hp00 : p = 0 <-> r = reference_rssi t).
    { unfold p. split; intros H.
      - unfold Rdiv in H. apply Rmult_integral in H. destruct H as [H | H]; [lra |].
        exfalso. apply (Rinv_neq_0_compat (10 * path_loss_exponent t)); [lra | exact H].
      - rewrite H. unfold Rdiv. ring. }
    rewrite py_max2_Rmax, py_min2_Rmin. split.
    + rewrite <- Hp2. split; intros H.
      * injection H as H. destruct (Rle_dec 2 p) as [Hle | Hlt]; [exact Hle | exfalso].
        pose proof (Rpower_10_lt p 2 ltac:(lra)) as Hlt2. rewrite Rpower_10_2 in Hlt2.
        unfold Rmin, Rmax in H. destruct (Rle_dec 100.0 (Rpower 10 p)),
          (Rle_dec 1.0 _); lra.
      * pose proof (Rpower_10_le 2 p H) as Hle. rewrite Rpower_10_2 in Hle.
        f_equal. unfold Rmin, Rmax.
        destruct (Rle_dec 100.0 (Rpower 10 p)), (Rle_dec 1.0 _); lra.
    + rewrite <- Hp00. split; intros H.
      * injection H as H. destruct (Req_dec p 0) as [Hz | Hz]; [exact Hz | exfalso].
        pose proof (Rpower_10_lt 0 p ltac:(lra)) as Hgt.
        rewrite Rpower_O in Hgt by lra.
        unfold Rmin, Rmax in H. destruct (Rle_dec 100.0 (Rpower 10 p)),
          (Rle_dec 1.0 _); lra.
      * rewrite H, Rpower_O by lra. f_equal. unfold Rmin, Rmax.
        destruct (Rle_dec 100.0 1), (Rle_dec 1.0 _); lra.
Qed.

(** ** The two-anchor solve does not depend on the anchor order *)

(** [_trilaterate_2ap] returns the same estimate when the two anchors are
    given in the opposite order. *)
Theorem trilaterate_2ap_symmetric (ap1 ap2 : APCoordinates) (d1 d2 : R) :
  trilaterate_2ap [(ap1, d1); (ap2, d2)] = trilaterate_2ap [(ap2, d2); (ap1, d1)].
Proof.
  assert (HD : sqrt ((ap_x ap1 - ap_x ap2) ^ 2 + (ap_y ap1 - ap_y ap2) ^ 2) =
               sqrt ((ap_x ap2 - ap_x ap1) ^ 2 + (ap_y ap2 - ap_y ap1) ^ 2))
    by (f_equal; ring).
  destruct (trilaterate_2ap_cases ap1 d1 ap2 d2) as [[H0 H] | [Hd H]];
    destruct (trilaterate_2ap_cases ap2 d2 ap1 d1) as [[H0' H'] | [Hd' H']];
    rewrite H, H'; cbn zeta in *; rewrite HD in *; try contradiction.
  - apply sqrt_sum_squares_zero in H0. destruct H0 as [Hx Hy].
    rewrite Rmax_comm. f_equal. f_equal; lra.
  - set (D := sqrt ((ap_x ap2 - ap_x ap1) ^ 2 + (ap_y ap2 - ap_y ap1) ^ 2)) in *.
    assert (Hh : two_ap_h_sq d2 d1 D = two_ap_h_sq d1 d2 D)
      by (unfold two_ap_h_sq, two_ap_a; field; exact Hd).
    rewrite Hh, Rmax_comm. unfold baseline_projection. cbn [fst snd].
    rewrite HD. fold D. f_equal. f_equal; unfold two_ap_a; field; exact Hd.
Qed.

(** ** Estimates returned by [trilaterate] *)

Lemma rssi_to_distance_pos (t : WastelandTriangulator) (r f d : R) :
  rssi_to_distance t r f = Ok d -> 0 < d.
Proof.
  intros H. destruct (rssi_to_distance_ok_cases t r f d H) as [[_ ->] | [_ [fc [_ ->]]]];
    [lra | pose proof (clamp_range (reference_distance t *
             Rpower 10 ((reference_rssi t - (r - fc)) / (10 * path_loss_exponent t)))); lra].
Qed.

(** What the loop of [trilaterate] collects: one pair per observation naming
    a registered AP, with that AP's coordinates and a positive distance. *)
Lemma collect_ap_distances_props (t : WastelandTriangulator) (sigs : list ClientSignal)
  (ds : list (APCoordinates * R)) :
  collect_ap_distances t sigs = Ok ds ->
  length ds = length (filter (registered t) sigs) /\
  Forall (fun p => 0 < snd p) ds /\
  Forall (fun p => exists s, In s sigs /\
            dict_get (ap_name s) (ap_coordinates t) = Some (fst p)) ds.
Proof.
  revert ds. induction sigs as [| s sigs IH]; intros ds H.
  - cbn in H. injection H as <-. split; [reflexivity | split; constructor].
  - cbn [collect_ap_distances] in H. cbn [filter]. unfold registered at 1.
    destruct (dict_get (ap_name s) (ap_coordinates t)) as [ap |] eqn:Hg.
    + destruct (rssi_to_distance t (rssi s) (frequency s)) as [d | e] eqn:Hd;
        cbn [bind] in H; [| discriminate H].
      destruct (collect_ap_distances t sigs) as [tl | e] eqn:Hc;
        cbn [bind] in H; [| discriminate H].
      injection H as <-. destruct (IH tl eq_refl) as [Hlen [Hpos Hin]].
      split; [cbn; rewrite Hlen; reflexivity |]. split.
      * constructor; [exact (rssi_to_distance_pos _ _ _ _ Hd) | exact Hpos].
      * constructor; [exists s; split; [left; reflexivity | exact Hg] |].
        eapply Forall_impl; [| exact Hin].
        intros p [s' [Hs' Hg']]. exists s'. split; [right; exact Hs' | exact Hg'].
    + destruct (IH ds H) as [Hlen [Hpos Hin]].
      split; [exact Hlen |]. split; [exact Hpos |].
      eapply Forall_impl; [| exact Hin].
      intros p [s' [Hs' Hg']]. exists s'. split; [right; exact Hs' | exact Hg'].
Qed.

Lemma py_sum_nonneg (l : list R) : Forall (fun x => 0 <= x) l -> 0 <= py_sum l.
Proof.
  intros H. induction H as [| x l Hx _ IH]; [unfold py_sum; cbn; lra |].
  rewrite py_sum_cons. lra.
Qed.

Lemma py_mean_nonneg (l : list R) (m : R) :
  Forall (fun x => 0 <= x) l -> py_mean l = Ok m -> 0 <= m.
Proof.
  intros Hl H. destruct l as [| x l']; [discriminate H |].
  assert (Hn : 0 < INR (length (x :: l'))) by (apply lt_0_INR; cbn [length]; lia).
  rewrite py_mean_ok in H by discriminate. injection H as <-.
  unfold Rdiv. apply Rmult_le_pos; [exact (py_sum_nonneg _ Hl) |].
  left. apply Rinv_0_lt_compat. exact Hn.
Qed.

Lemma mapM_residual_nonneg (x y : R) (l : list (APCoordinates * R)) (res : list R) :
  mapM (residual x y) l = Ok res -> Forall (fun r => 0 <= r) res.
Proof.
  revert res. induction l as [| [ap d] l IH]; intros res H; cbn [mapM] in H.
  - injection H as <-. constructor.
  - unfold residual at 1 in H.
    destruct (py_sqrt _) as [ed | e]; cbn [bind] in H; [| discriminate H].
    destruct (mapM (residual x y) l) as [bs | e]; cbn [bind] in H; [| discriminate H].
    injection H as <-. constructor; [apply Rabs_pos | exact (IH bs eq_refl)].
Qed.

Lemma trilaterate_multiap_bounds (l : list (APCoordinates * R)) (loc : LocationEstimate) :
  Forall (fun p => 0 < snd p) l ->
  trilaterate_multiap l = Ok loc ->
  0.1 <= confidence loc <= 1 /\ 0 <= error_radius loc /\ num_aps loc = length l.
Proof.
  intros Hpos H. unfold trilaterate_multiap in H.
  destruct l as [| p l'] eqn:El; [discriminate H |]. rewrite <- El in *.
  assert (Hl : l <> []) by (rewrite El; discriminate).
  destruct (linear_system l) as [A b].
  destruct (trilaterate_multiap_try l A b) as [r | e] eqn:Ht.
  - cbn [try_except_value_zerodiv bind] in H. destruct r as [[[x y] c] er].
    injection H as <-. cbn [confidence error_radius num_aps].
    unfold trilaterate_multiap_try in Ht.
    destruct (Rlt_dec _ singular_threshold); [discriminate Ht |].
    destruct (py_div _ (normal_det A)) as [x' | e]; cbn [bind] in Ht; [| discriminate Ht].
    destruct (py_div _ (normal_det A)) as [y' | e]; cbn [bind] in Ht; [| discriminate Ht].
    destruct (mapM (residual x' y') l) as [res | e] eqn:Hres; cbn [bind] in Ht;
      [| discriminate Ht].
    destruct (py_mean res) as [avg | e] eqn:Havg; cbn [bind] in Ht; [| discriminate Ht].
    destruct (py_max (map snd l)) as [m | e] eqn:Hm; cbn [bind] in Ht; [| discriminate Ht].
    unfold py_div in Ht. destruct (Req_EM_T m 0) as [_ | Hm0]; cbn [bind] in Ht;
      [discriminate Ht |].
    injection Ht as <- <- <- <-.
    assert (Havg0 : 0 <= avg) by exact (py_mean_nonneg _ _ (mapM_residual_nonneg _ _ _ _ Hres) Havg).
    assert (Hmpos : 0 < m).
    { destruct (py_max_bounds _ _ Hm) as [Hin _].
      apply in_map_iff in Hin. destruct Hin as [q [<- Hq]].
      rewrite Forall_forall in Hpos. exact (Hpos q Hq). }
    assert (Hq : 0 <= avg / m)
      by (unfold Rdiv; apply Rmult_le_pos; [lra | left; apply Rinv_0_lt_compat; lra]).
    split; [| split; [exact Havg0 | reflexivity]].
    unfold py_max2. destruct (Rlt_dec 0.1 (1.0 - avg / m)); lra.
  - destruct (trilaterate_multiap_try_raise l A b e Hl Ht) as [-> | ->];
      cbn [try_except_value_zerodiv] in H; rewrite trilaterate_multiap_fallback_ok in H by exact Hl;
      cbn [bind] in H; injection H as <-; cbn [confidence error_radius num_aps];
      (split; [lra | split; [| reflexivity]]);
      (apply Rmult_le_pos; [| lra]); unfold Rdiv;
      (apply Rmult_le_pos;
       [apply py_sum_nonneg; rewrite Forall_map; eapply Forall_impl; [| exact Hpos];
        intros q Hq; lra
       | left; apply Rinv_0_lt_compat, lt_0_INR; destruct l; [contradiction | cbn; lia]]).
Qed.

Lemma trilaterate_2ap_bounds (ds : list (APCoordinates * R)) (loc : LocationEstimate) :
  length ds = 2%nat -> Forall (fun p => 0 < snd p) ds ->
  trilaterate_2ap ds = Ok loc ->
  0.1 <= confidence loc <= 1 /\ 0 <= error_radius loc /\ num_aps loc = 2%nat.
Proof.
  intros Hlen Hpos H.
  destruct ds as [| [ap1 d1] [| [ap2 d2] [| ? ?]]]; try discriminate Hlen.
  inversion Hpos as [| ? ? Hd1 _]; subst. cbn [snd] in Hd1.
  pose proof (Rmax_l d1 d2) as Hmax.
  destruct (trilaterate_2ap_cases ap1 d1 ap2 d2) as [[_ H'] | [_ H']];
    rewrite H' in H; injection H as <-; cbn [confidence error_radius num_aps].
  - split; [lra | split; [lra | reflexivity]].
  - split; [destruct (Rlt_dec _ 0); lra | split; [lra | reflexivity]].
Qed.

Lemma trilaterate_bounds (t : WastelandTriangulator) (sigs : list ClientSignal)
  (loc : LocationEstimate) :
  trilaterate t sigs = Ok (Some loc) ->
  0.1 <= confidence loc <= 1 /\ 0 <= error_radius loc /\
  num_aps loc = length (filter (registered t) sigs) /\ (2 <= num_aps loc)%nat.
Proof.
  intros H. unfold trilaterate in H.
  destruct (Nat.ltb (length sigs) 2); [discriminate H |].
  destruct (collect_ap_distances t sigs) as [ds | e] eqn:Hc; cbn [bind] in H;
    [| discriminate H].
  destruct (collect_ap_distances_props t sigs ds Hc) as [Hlen [Hpos _]].
  destruct (Nat.ltb_spec (length ds) 2) as [Hlt | Hge]; [discriminate H |].
  destruct (Nat.eqb_spec (length ds) 2) as [H2 | H2].
  - destruct (trilaterate_2ap ds) as [l | e] eqn:H2ap; cbn [bind] in H; [| discriminate H].
    injection H as <-. destruct (trilaterate_2ap_bounds ds l H2 Hpos H2ap) as [Hc' [He Hn]].
    split; [exact Hc' | split; [exact He | split; lia]].
  - destruct (trilaterate_multiap ds) as [l | e] eqn:Hm; cbn [bind] in H; [| discriminate H].
    injection H as <-. destruct (trilaterate_multiap_bounds ds l Hpos Hm) as [Hc' [He Hn]].
    split; [exact Hc' | split; [exact He | split; lia]].
Qed.

(** Every estimate [trilaterate] returns has a confidence in [[0.1, 1.0]], a
    non-negative error radius, and [num_aps] equal to the number of
    observations naming registered APs (at least 2). *)
Theorem trilaterate_estimate_bounds (t : WastelandTriangulator) (sigs : list ClientSignal)
  (loc : LocationEstimate) :
  trilaterate t sigs = Ok (Some loc) ->
  0.1 <= confidence loc <= 1 /\ 0 <= error_radius loc /\
  num_aps loc = length (filter (registered t) sigs) /\ (2 <= num_aps loc)%nat.
Proof. apply trilaterate_bounds. Qed.

Lemma trilaterate_estimate_bounds_witness :
  exists loc, trilaterate one_ap_t single_anchor_signals = Ok (Some loc) /\
    0.1 <= confidence loc <= 1 /\ 0 <= error_radius loc /\
    num_aps loc = length (filter (registered one_ap_t) single_anchor_signals) /\
    (2 <= num_aps loc)%nat.
Proof.
  destruct single_anchor_trilaterate as [loc [H _]]. exists loc.
  split; [exact H |]. exact (trilaterate_estimate_bounds one_ap_t single_anchor_signals loc H).
Defined.

(** ** When [trilaterate] raises *)

Lemma collect_raise_iff (t : WastelandTriangulator) (sigs : list ClientSignal) (e : PyExc) :
  collect_ap_distances t sigs = Raise e <->
  e = ValueError /\ exists s, In s sigs /\ bad_frequency t s.
Proof.
  revert e. induction sigs as [| s sigs IH]; intros e.
  - cbn. split; [intros H; discriminate H | intros [_ [s [[] _]]]].
  - cbn [collect_ap_distances].
    destruct (dict_get (ap_name s) (ap_coordinates t)) as [ap |] eqn:Hg.
    + destruct (rssi_to_distance t (rssi s) (frequency s)) as [d | e'] eqn:Hd; cbn [bind].
      * destruct (collect_ap_distances t sigs) as [tl | e''] eqn:Hc; cbn [bind].
        -- split; [intros H; discriminate H |].
           intros [He [s' [[<- | Hin] [Hreg [Hr Hf]]]]].
           ++ assert (Hraise : rssi_to_distance t (rssi s) (frequency s) = Raise ValueError)
                by (apply rssi_to_distance_raise_iff; split; [reflexivity | split; assumption]).
              rewrite Hd in Hraise. discriminate Hraise.
           ++ assert (Hraise : Ok tl = Raise (A := list (APCoordinates * R)) e).
              { apply IH. split; [exact He |].
                exists s'. split; [exact Hin | split; [exact Hreg | split; assumption]]. }
              discriminate Hraise.
        -- destruct (proj1 (IH e'') eq_refl) as [He'' [s' [Hin Hbad]]]. split.
           ++ intros H. injection H as <-. split; [exact He'' |].
              exists s'. split; [right; exact Hin | exact Hbad].
           ++ intros [-> _]. rewrite He''. reflexivity.
      * apply rssi_to_distance_raise_iff in Hd. destruct Hd as [-> [Hr Hf]]. split.
        -- intros H. injection H as <-. split; [reflexivity |].
           exists s. split; [left; reflexivity |].
           unfold bad_frequency, registered. rewrite Hg. split; [reflexivity | split; assumption].
        -- intros [-> _]. reflexivity.
    + rewrite IH. split.
      * intros [He [s' [Hin Hbad]]]. split; [exact He |].
        exists s'. split; [right; exact Hin | exact Hbad].
      * intros [He [s' [[<- | Hin] Hbad]]].
        -- destruct Hbad as [Hreg _]. unfold registered in Hreg. rewrite Hg in Hreg.
           discriminate Hreg.
        -- split; [exact He | exists s'; split; assumption].
Qed.

(** [trilaterate] raises exactly when it is given at least two observations
    and one of them names a registered AP, is not stronger than the
    reference RSSI and has a non-positive frequency; the exception is
    ValueError. The solvers themselves never raise. *)
Theorem trilaterate_raise_iff (t : WastelandTriangulator) (sigs : list ClientSignal) (e : PyExc) :
  trilaterate t sigs = Raise e <->
  (2 <= length sigs)%nat /\ e = ValueError /\
  exists s, In s sigs /\ registered t s = true /\ rssi s <= reference_rssi t /\ frequency s <= 0.
Proof.
  unfold trilaterate.
  destruct (Nat.ltb_spec (length sigs) 2) as [Hlt | Hge].
  - split; [intros H; discriminate H | intros [H _]; lia].
  - destruct (collect_ap_distances t sigs) as [ds | e'] eqn:Hc; cbn [bind].
    + assert (Hok : exists r, (if Nat.ltb (length ds) 2 then Ok None
                               else if Nat.eqb (length ds) 2 then
                                 let* l := trilaterate_2ap ds in Ok (Some l)
                               else let* l := trilaterate_multiap ds in Ok (Some l)) = Ok r).
      { destruct (Nat.ltb_spec (length ds) 2); [eexists; reflexivity |].
        destruct (Nat.eqb_spec (length ds) 2) as [H2 | H2].
        - destruct (trilaterate_2ap_ok ds H2) as [l ->]. eexists. reflexivity.
        - assert (ds <> []) by (intros ->; cbn in *; lia).
          destruct (trilaterate_multiap_ok ds ltac:(assumption)) as [l ->].
          eexists. reflexivity. }
      destruct Hok as [r Hr]. rewrite Hr. split; [intros H; discriminate H |].
      intros [_ [He [s [Hin Hbad]]]].
      assert (Hraise : collect_ap_distances t sigs = Raise e)
        by (apply collect_raise_iff; split; [exact He | exists s; split; [exact Hin | exact Hbad]]).
      rewrite Hc in Hraise. discriminate Hraise.
    + destruct (proj1 (collect_raise_iff t sigs e') Hc) as [He' [s [Hin Hbad]]]. split.
      * intros H. injection H as <-. split; [exact Hge | split; [exact He' |]].
        exists s. split; [exact Hin | exact Hbad].
      * intros [_ [-> _]]. rewrite He'. reflexivity.
Qed.

(** ** Grouping and tracking *)

Lemma group_fold_lookup (l : list ClientSignal) (d : list (string * list ClientSignal))
  (mac : string) :
  dict_get mac (fold_left
    (fun d s =>
       let prev := match dict_get (mac_address s) d with Some l => l | None => [] end in
       dict_set (mac_address s) (prev ++ [s]) d) l d) =
  match dict_get mac d, signals_of mac l with
  | None, [] => None
  | None, g => Some g
  | Some g0, g => Some (g0 ++ g)
  end.
Proof.
  revert d. induction l as [| s l IH]; intros d; cbn [fold_left].
  - unfold signals_of. cbn [filter]. destruct (dict_get mac d); [rewrite app_nil_r |]; reflexivity.
  - rewrite IH. unfold signals_of. cbn [filter].
    destruct (String.eqb_spec (mac_address s) mac) as [Hm | Hm].
    + rewrite <- Hm, dict_get_set_eq.
      destruct (dict_get (mac_address s) d) as [g0 |];
        [rewrite <- app_assoc | ]; reflexivity.
    + rewrite dict_get_set_neq by (intros H; apply Hm; symmetry; exact H). reflexivity.
Qed.

Lemma group_by_mac_lookup_eq (all_signals : list ClientSignal) (mac : string) :
  dict_get mac (group_by_mac all_signals) =
  match signals_of mac all_signals with [] => None | g => Some g end.
Proof.
  unfold group_by_mac. rewrite group_fold_lookup. cbn [dict_get].
  destruct (signals_of mac all_signals); reflexivity.
Qed.

(** The grouping loop of [track_clients] puts under each client identifier
    exactly that client's observations, in input order; identifiers without
    observations get no group. *)
Theorem group_by_mac_lookup (all_signals : list ClientSignal) (mac : string) :
  dict_get mac (group_by_mac all_signals) =
  match signals_of mac all_signals with [] => None | g => Some g end.
Proof. apply group_by_mac_lookup_eq. Qed.

(** The location [track_clients] reports for a client is computed from that
    client's own observations alone: the solver runs on the recent part of
    [[s for s in all_signals if s.mac_address == mac]], and the estimate is
    kept when its confidence exceeds 0.1. A client with no observation is
    absent. *)
Theorem track_clients_per_client (t : WastelandTriangulator)
  (all_signals : list ClientSignal) (out : list (string * LocationEstimate)) (mac : string) :
  track_clients t all_signals = Ok out ->
  (signals_of mac all_signals = [] -> dict_get mac out = None) /\
  (signals_of mac all_signals <> [] ->
   exists r, trilaterate t (client_recent (signals_of mac all_signals)) = Ok r /\
             dict_get mac out = keep_confident r).
Proof.
  intros H. destruct (track_clients_lookup t all_signals out mac H) as [H1 H2].
  rewrite group_by_mac_lookup_eq in H1, H2. split.
  - intros Hnil. apply H2. rewrite Hnil. reflexivity.
  - intros Hne. apply H1.
    destruct (signals_of mac all_signals); [contradiction | reflexivity].
Qed.

Lemma track_clients_per_client_witness :
  exists out, track_clients one_ap_t shared_prefix_signals = Ok out /\
    signals_of "aa:bb:cc:dd:ee:01" shared_prefix_signals = single_anchor_signals /\
    signals_of "aa:bb:cc:dd:ee:02" shared_prefix_signals =
      [reference_signal 0; reference_signal 1; reference_signal 2] /\
    (exists r, trilaterate one_ap_t (client_recent single_anchor_signals) = Ok r /\
               dict_get "aa:bb:cc:dd:ee:01" out = keep_confident r) /\
    (exists r, trilaterate one_ap_t
                 (client_recent [reference_signal 0; reference_signal 1; reference_signal 2])
                 = Ok r /\
               dict_get "aa:bb:cc:dd:ee:02" out = keep_confident r).
Proof.
  destruct shared_prefix_track as [loc1 [loc2 [H _]]].
  eexists. split; [exact H |].
  assert (H1 : signals_of "aa:bb:cc:dd:ee:01" shared_prefix_signals = single_anchor_signals)
    by reflexivity.
  assert (H2 : signals_of "aa:bb:cc:dd:ee:02" shared_prefix_signals =
               [reference_signal 0; reference_signal 1; reference_signal 2]) by reflexivity.
  split; [exact H1 |]. split; [exact H2 |].
  destruct (track_clients_per_client one_ap_t shared_prefix_signals _
              "aa:bb:cc:dd:ee:01" H) as [_ Ha].
  destruct (track_clients_per_client one_ap_t shared_prefix_signals _
              "aa:bb:cc:dd:ee:02" H) as [_ Hb].
  rewrite H1 in Ha. rewrite H2 in Hb.
  split; [apply Ha | apply Hb]; discriminate.
Defined.

Lemma track_loop_nodup (t : WastelandTriangulator) (groups : list (string * list ClientSignal))
  (acc out : list (string * LocationEstimate)) :
  NoDup (map fst acc) -> track_loop t groups acc = Ok out -> NoDup (map fst out).
Proof.
  revert acc. induction groups as [| [m g] rest IH]; intros acc Hnd H; cbn [track_loop] in H.
  - injection H as <-. exact Hnd.
  - destruct (locate_client t g) as [kept | e]; cbn [bind] in H; [| discriminate H].
    refine (IH _ _ H). destruct kept; [apply dict_set_nodup |]; exact Hnd.
Qed.

Lemma dict_get_In {V : Type} (k : string) (v : V) (d : list (string * V)) :
  NoDup (map fst d) -> In (k, v) d -> dict_get k d = Some v.
Proof.
  induction d as [| [k' v'] d IH]; cbn; intros Hnd Hin; [destruct Hin |].
  inversion Hnd as [| ? ? Hnin Hnd']; subst.
  destruct Hin as [Heq | Hin].
  - injection Heq as -> ->. rewrite String.eqb_refl. reflexivity.
  - destruct (String.eqb_spec k k') as [-> | _]; [| exact (IH Hnd' Hin)].
    exfalso. apply Hnin. apply in_map_iff. exists (k', v). split; [reflexivity | exact Hin].
Qed.

(** What [track_clients] returns: each client identifier at most once, each
    one the MAC of some input observation, each estimate with confidence in
    (0.1, 1.0], a non-negative error radius and at least two observations. *)
Theorem track_clients_output (t : WastelandTriangulator) (all_signals : list ClientSignal)
  (out : list (string * LocationEstimate)) :
  track_clients t all_signals = Ok out ->
  NoDup (map fst out) /\
  forall mac loc, In (mac, loc) out ->
    (exists s, In s all_signals /\ mac_address s = mac) /\
    0.1 < confidence loc <= 1 /\ 0 <= error_radius loc /\ (2 <= num_aps loc)%nat.
Proof.
  intros H. destruct (group_by_mac_ok all_signals) as [Hgnd _].
  assert (Hnd : NoDup (map fst out))
    by exact (track_loop_nodup t _ [] out (NoDup_nil _) H).
  split; [exact Hnd |]. intros mac loc Hin.
  pose proof (dict_get_In mac loc out Hnd Hin) as Hget.
  destruct (track_clients_lookup t all_signals out mac H) as [H1 H2].
  rewrite group_by_mac_lookup_eq in H1, H2.
  destruct (signals_of mac all_signals) as [| s g] eqn:Hs.
  - rewrite (H2 eq_refl) in Hget. discriminate Hget.
  - destruct (H1 (s :: g) eq_refl) as [r [Hr Hout]].
    rewrite Hget in Hout. unfold keep_confident in Hout.
    destruct r as [l |]; [| discriminate Hout].
    destruct (Rlt_dec 0.1 (confidence l)) as [Hc | _]; [| discriminate Hout].
    injection Hout as <-.
    destruct (trilaterate_bounds t _ _ Hr) as [[_ Hc1] [He [_ Hn]]].
    split; [| split; [split; assumption | split; assumption]].
    assert (Hin_s : In s (signals_of mac all_signals)) by (rewrite Hs; left; reflexivity).
    unfold signals_of in Hin_s. apply filter_In in Hin_s. destruct Hin_s as [Hin_s Hm].
    exists s. split; [exact Hin_s | apply String.eqb_eq; exact Hm].
Qed.

Lemma track_clients_output_witness :
  exists out, track_clients one_ap_t single_anchor_signals = Ok out /\
    NoDup (map fst out) /\
    forall mac loc, In (mac, loc) out ->
      (exists s, In s single_anchor_signals /\ mac_address s = mac) /\
      0.1 < confidence loc <= 1 /\ 0 <= error_radius loc /\ (2 <= num_aps loc)%nat.
Proof.
  destruct single_anchor_track as [loc [H _]]. exists [("aa:bb:cc:dd:ee:01"%string, loc)].
  split; [exact H |]. exact (track_clients_output one_ap_t single_anchor_signals _ H).
Defined.

(** * Further properties of the exporter *)

(** ** [_setup_ap_coordinates] *)

Lemma tuple_get_ok (coords : list R) (i : nat) :
  (i < length coords)%nat -> tuple_get coords i = Ok (nth i coords 0).
Proof.
  intros H. unfold tuple_get. rewrite (nth_error_nth' coords 0 H). reflexivity.
Qed.

Lemma setup_provided_spec (ap_hosts : list string) (coords : list (string * list R))
  (t : WastelandTriangulator) :
  NoDup (map fst coords) -> Forall (fun p => (2 <= length (snd p))%nat) coords ->
  exists t', setup_provided ap_hosts coords t = Ok t' /\
    (forall r f, rssi_to_distance t' r f = rssi_to_distance t r f) /\
    forall ip, dict_get ip (ap_coordinates t') =
      if str_in ip ap_hosts then
        match dict_get ip coords with
        | Some c => Some (mkAP (nth 0 c 0) (nth 1 c 0)
                               (if Nat.ltb 2 (length c) then nth 2 c 0 else 2.5) ip)
        | None => dict_get ip (ap_coordinates t)
        end
      else dict_get ip (ap_coordinates t).
Proof.
  revert t. induction coords as [| [ip0 c0] rest IH]; intros t Hnd Hlen.
  - exists t. split; [reflexivity | split; [reflexivity |]].
    intros ip. cbn [dict_get]. destruct (str_in ip ap_hosts); reflexivity.
  - inversion Hnd as [| ? ? Hnin Hnd']; subst. cbn [fst map] in Hnin.
    inversion Hlen as [| ? ? Hc0 Hlen']; subst. cbn [snd] in Hc0.
    cbn [setup_provided].
    destruct (str_in ip0 ap_hosts) eqn:Hin0.
    + rewrite (tuple_get_ok c0 0) by lia. cbn [bind].
      rewrite (tuple_get_ok c0 1) by lia. cbn [bind].
      set (z := if Nat.ltb 2 (length c0) then nth 2 c0 0 else 2.5).
      assert (Hz : (if Nat.ltb 2 (length c0) then tuple_get c0 2 else Ok 2.5) = Ok z).
      { unfold z. destruct (Nat.ltb_spec 2 (length c0));
          [apply tuple_get_ok; exact H | reflexivity]. }
      rewrite Hz. cbn [bind].
      destruct (IH (add_ap t ip0 (nth 0 c0 0) (nth 1 c0 0) z) Hnd' Hlen')
        as [t' [Ht' [Hd Hget]]].
      exists t'. split; [exact Ht' | split; [intros r f; rewrite Hd; reflexivity |]].
      intros ip. rewrite Hget. cbn [dict_get].
      destruct (String.eqb_spec ip ip0) as [-> | Hne].
      * rewrite Hin0, (dict_get_none ip0 rest Hnin). apply dict_get_set_eq.
      * cbn [add_ap ap_coordinates]. rewrite dict_get_set_neq by exact Hne. reflexivity.
    + destruct (IH t Hnd' Hlen') as [t' [Ht' [Hd Hget]]].
      exists t'. split; [exact Ht' | split; [exact Hd |]].
      intros ip. rewrite Hget. cbn [dict_get].
      destruct (String.eqb_spec ip ip0) as [-> | Hne]; [rewrite Hin0; reflexivity | reflexivity].
Qed.

Lemma setup_provided_spec_indoor (ap_hosts : list string) (coords : list (string * list R)) :
  NoDup (map fst coords) -> Forall (fun p => (2 <= length (snd p))%nat) coords ->
  exists t', setup_provided ap_hosts coords (new_triangulator "indoor") = Ok t' /\
    (forall r f, rssi_to_distance t' r f = rssi_to_distance (new_triangulator "indoor") r f) /\
    forall ip, dict_get ip (ap_coordinates t') =
      if str_in ip ap_hosts then
        match dict_get ip coords with
        | Some c => Some (mkAP (nth 0 c 0) (nth 1 c 0)
                               (if Nat.ltb 2 (length c) then nth 2 c 0 else 2.5) ip)
        | None => None
        end
      else None.
Proof.
  intros Hnd Hlen.
  destruct (setup_provided_spec ap_hosts coords (new_triangulator "indoor") Hnd Hlen)
    as [t' [Ht' [Hd Hget]]].
  exists t'. split; [exact Ht' | split; [exact Hd |]].
  intros ip. rewrite Hget. reflexivity.
Qed.

(** With coordinates given (a non-empty dict of IP to a tuple of at least two
    floats, as [main] builds it), [_setup_ap_coordinates] registers exactly
    the IPs that are also in [ap_hosts], each at [(c[0], c[1], c[2])], or at
    height 2.5 when the tuple has two entries; coordinates for other IPs are
    ignored and the path-loss model stays the indoor one. *)
Theorem setup_ap_coordinates_provided (ap_hosts : list string)
  (coords : list (string * list R)) :
  coords <> [] -> NoDup (map fst coords) ->
  Forall (fun p => (2 <= length (snd p))%nat) coords ->
  exists t, setup_ap_coordinates ap_hosts (Some coords) (new_triangulator "indoor") = Ok t /\
    (forall r f, rssi_to_distance t r f = rssi_to_distance (new_triangulator "indoor") r f) /\
    forall ip, dict_get ip (ap_coordinates t) =
      if str_in ip ap_hosts then
        match dict_get ip coords with
        | Some c => Some (mkAP (nth 0 c 0) (nth 1 c 0)
                               (if Nat.ltb 2 (length c) then nth 2 c 0 else 2.5) ip)
        | None => None
        end
      else None.
Proof.
  intros Hne Hnd Hlen. unfold setup_ap_coordinates.
  destruct coords as [| p coords']; [contradiction |].
  exact (setup_provided_spec_indoor ap_hosts (p :: coords') Hnd Hlen).
Qed.

Lemma setup_ap_coordinates_provided_witness :
  ([("10.0.0.1"%string, [0; 0; 3]); ("10.0.0.9"%string, [5; 5])] : list (string * list R)) <> [] /\
  NoDup (map fst ([("10.0.0.1"%string, [0; 0; 3]); ("10.0.0.9"%string, [5; 5])]
                  : list (string * list R))) /\
  Forall (fun p => (2 <= length (snd p))%nat)
    ([("10.0.0.1"%string, [0; 0; 3]); ("10.0.0.9"%string, [5; 5])] : list (string * list R)) /\
  exists t, setup_ap_coordinates ["10.0.0.1"%string; "10.0.0.2"%string]
              (Some [("10.0.0.1"%string, [0; 0; 3]); ("10.0.0.9"%string, [5; 5])])
              (new_triangulator "indoor") = Ok t.
Proof.
  assert (Hne : ([("10.0.0.1"%string, [0; 0; 3]); ("10.0.0.9"%string, [5; 5])]
                 : list (string * list R)) <> []) by discriminate.
  assert (Hnd : NoDup (map fst ([("10.0.0.1"%string, [0; 0; 3]); ("10.0.0.9"%string, [5; 5])]
                  : list (string * list R)))).
  { cbn. constructor; [intros [H | []]; discriminate H | constructor; [intros [] | constructor]]. }
  assert (Hlen : Forall (fun p => (2 <= length (snd p))%nat)
    ([("10.0.0.1"%string, [0; 0; 3]); ("10.0.0.9"%string, [5; 5])] : list (string * list R)))
    by (repeat constructor; cbn; lia).
  split; [exact Hne | split; [exact Hnd | split; [exact Hlen |]]].
  destruct (setup_ap_coordinates_provided ["10.0.0.1"%string; "10.0.0.2"%string] _ Hne Hnd Hlen)
    as [t [Ht _]].
  exists t. exact Ht.
Defined.

Lemma setup_demo_spec (k : nat) (ap_hosts : list string) (t : WastelandTriangulator) :
  NoDup ap_hosts ->
  (forall i ip, nth_error ap_hosts i = Some ip ->
     dict_get ip (ap_coordinates (setup_demo k ap_hosts t)) =
     Some (mkAP (INR (k + i) * 20) 0 2.5 ip)) /\
  (forall ip, ~ In ip ap_hosts ->
     dict_get ip (ap_coordinates (setup_demo k ap_hosts t)) = dict_get ip (ap_coordinates t)).
Proof.
  revert k t. induction ap_hosts as [| ip0 rest IH]; intros k t Hnd.
  - split; [intros i ip H; destruct i; discriminate H | intros ip _; reflexivity].
  - inversion Hnd as [| ? ? Hnin Hnd']; subst. cbn [setup_demo].
    destruct (IH (S k) (add_ap t ip0 (INR k * 20) 0 2.5) Hnd') as [H1 H2]. split.
    + intros [| i] ip H; cbn [nth_error] in H.
      * injection H as <-. rewrite (H2 ip0 Hnin). rewrite Nat.add_0_r. apply dict_get_set_eq.
      * rewrite (H1 i ip H). do 4 f_equal. lia.
    + intros ip Hn. rewrite H2 by (intros H; apply Hn; right; exact H).
      apply dict_get_set_neq. intros ->. apply Hn. left. reflexivity.
Qed.

(** Without coordinates ([None] or an empty dict), [_setup_ap_coordinates]
    places the [i]-th host of [ap_hosts] at [(20 * i, 0, 2.5)] (hosts listed
    once each) and registers no other AP. *)
Theorem setup_ap_coordinates_demo (ap_hosts : list string) :
  setup_ap_coordinates ap_hosts None (new_triangulator "indoor") =
    Ok (demo_triangulator ap_hosts) /\
  setup_ap_coordinates ap_hosts (Some []) (new_triangulator "indoor") =
    Ok (demo_triangulator ap_hosts) /\
  (NoDup ap_hosts ->
   (forall i ip, nth_error ap_hosts i = Some ip ->
      dict_get ip (ap_coordinates (demo_triangulator ap_hosts)) =
      Some (mkAP (INR i * 20) 0 2.5 ip)) /\
   (forall ip, ~ In ip ap_hosts -> dict_get ip (ap_coordinates (demo_triangulator ap_hosts)) = None)).
Proof.
  split; [reflexivity | split; [reflexivity |]].
  intros Hnd. unfold demo_triangulator.
  destruct (setup_demo_spec 0 ap_hosts (new_triangulator "indoor") Hnd) as [H1 H2]. split.
  - intros i ip H. rewrite (H1 i ip H). reflexivity.
  - intros ip Hn. rewrite (H2 ip Hn). reflexivity.
Qed.

Lemma setup_ap_coordinates_demo_witness :
  NoDup ["10.0.0.1"%string; "10.0.0.2"%string] /\
  dict_get "10.0.0.2"%string (ap_coordinates (demo_triangulator ["10.0.0.1"%string; "10.0.0.2"%string])) =
  Some (mkAP (INR 1 * 20) 0 2.5 "10.0.0.2"%string).
Proof.
  assert (Hnd : NoDup ["10.0.0.1"%string; "10.0.0.2"%string]).
  { constructor; [intros [H | []]; discriminate H | constructor; [intros [] | constructor]]. }
  split; [exact Hnd |].
  exact (proj1 (proj2 (proj2 (setup_ap_coordinates_demo _)) Hnd) 1%nat "10.0.0.2"%string eq_refl).
Defined.

Lemma setup_demo_on_axis (k : nat) (ap_hosts : list string) (t : WastelandTriangulator)
  (ip : string) (ap : APCoordinates) :
  dict_get ip (ap_coordinates (setup_demo k ap_hosts t)) = Some ap ->
  dict_get ip (ap_coordinates t) = Some ap \/ ap_y ap = 0.
Proof.
  revert k t. induction ap_hosts as [| ip0 rest IH]; intros k t H; [left; exact H |].
  cbn [setup_demo] in H. destruct (IH _ _ H) as [H' | H']; [| right; exact H'].
  cbn [add_ap ap_coordinates] in H'.
  destruct (String.eqb_spec ip ip0) as [-> | Hne].
  - rewrite dict_get_set_eq in H'. injection H' as <-. right. reflexivity.
  - rewrite dict_get_set_neq in H' by exact Hne. left. exact H'.
Qed.

Lemma demo_registered_on_axis (ap_hosts : list string) (ip : string) (ap : APCoordinates) :
  dict_get ip (ap_coordinates (demo_triangulator ap_hosts)) = Some ap -> ap_y ap = 0.
Proof.
  intros H. destruct (setup_demo_on_axis _ _ _ _ _ H) as [H' | H']; [| exact H'].
  unfold new_triangulator in H'. cbn in H'. discriminate H'.
Qed.

(** With the demo layout every AP lies on the x axis, so every estimate
    [trilaterate] returns has [y = 0], and an estimate from three or more
    observations is the centroid fallback with confidence 0.3 (the normal
    matrix of collinear anchors is singular). *)
Theorem demo_layout_estimates (ap_hosts : list string) (sigs : list ClientSignal)
  (loc : LocationEstimate) :
  trilaterate (demo_triangulator ap_hosts) sigs = Ok (Some loc) ->
  loc_y loc = 0 /\ ((3 <= num_aps loc)%nat -> confidence loc = 0.3).
Proof.
  set (t := demo_triangulator ap_hosts). intros H. unfold trilaterate in H.
  destruct (Nat.ltb (length sigs) 2); [discriminate H |].
  destruct (collect_ap_distances t sigs) as [ds | e] eqn:Hc; cbn [bind] in H;
    [| discriminate H].
  destruct (collect_ap_distances_props t sigs ds Hc) as [_ [_ Hreg]].
  assert (Hy : Forall (fun p => ap_y (fst p) = 0) ds).
  { eapply Forall_impl; [| exact Hreg].
    intros p [s [_ Hs]]. exact (demo_registered_on_axis _ _ _ Hs). }
  destruct (Nat.ltb_spec (length ds) 2) as [Hlt | Hge]; [discriminate H |].
  destruct (Nat.eqb_spec (length ds) 2) as [H2 | H2].
  - destruct ds as [| [ap1 d1] [| [ap2 d2] [| ? ?]]]; try discriminate H2.
    inversion Hy as [| ? ? Hy1 Hy']; subst. inversion Hy' as [| ? ? Hy2 _]; subst.
    cbn [fst] in Hy1, Hy2.
    destruct (trilaterate_2ap_cases ap1 d1 ap2 d2) as [[_ H'] | [Hd H']];
      rewrite H' in H; cbn [bind] in H; injection H as <-; cbn [loc_y num_aps].
    + split; [exact Hy1 | intros Hn; lia].
    + split; [| intros Hn; lia].
      unfold baseline_projection. cbn [snd]. rewrite Hy1, Hy2.
      unfold Rdiv. ring.
  - assert (Hne : ds <> []) by (intros ->; cbn in Hge; lia).
    assert (Hcol : collinear ds).
    { destruct ds as [| [ap0 d0] rest]; [contradiction |].
      inversion Hy as [| ? ? Hy0 Hyr]; subst. cbn [fst] in Hy0.
      exists 1, 0. eapply Forall_impl; [| exact Hyr].
      intros p Hp. exists (ap_x (fst p) - ap_x ap0). split; [ring | rewrite Hp, Hy0; ring]. }
    rewrite trilaterate_multiap_singular in H.
    + cbn [bind] in H. injection H as <-. cbn [loc_y confidence].
      split; [| intros _; reflexivity].
      replace (map (fun p => ap_y (fst p)) ds) with (map (fun _ : APCoordinates * R => 0) ds).
      * rewrite py_sum_zeros. unfold Rdiv. ring.
      * apply map_ext_in. intros p Hp. rewrite Forall_forall in Hy. symmetry. exact (Hy p Hp).
    + exact Hne.
    + rewrite collinear_normal_det by exact Hcol. rewrite Rabs_R0.
      unfold singular_threshold. lra.
Qed.

Lemma demo_one_ap : demo_triangulator ["ap-1"%string] = one_ap_t.
Proof.
  unfold demo_triangulator, one_ap_t. cbn [setup_demo INR]. rewrite Rmult_0_l. reflexivity.
Qed.

Lemma demo_layout_estimates_witness :
  exists loc, trilaterate (demo_triangulator ["ap-1"%string]) single_anchor_signals = Ok (Some loc) /\
    loc_y loc = 0 /\ ((3 <= num_aps loc)%nat -> confidence loc = 0.3).
Proof.
  rewrite demo_one_ap. destruct single_anchor_trilaterate as [loc [H _]].
  exists loc. split; [exact H |].
  rewrite <- demo_one_ap in H.
  exact (demo_layout_estimates ["ap-1"%string] single_anchor_signals loc H).
Defined.

(** ** [update_client_locations] *)

Lemma labels_get_set_eq (k : list string) (v : R) (g : Gauge) :
  labels_get k (labels_set k v g) = Some v.
Proof.
  induction g as [| [k' v'] g IH]; cbn.
  - destruct (list_eq_dec string_dec k k) as [_ | Hn]; [reflexivity | contradiction].
  - destruct (list_eq_dec string_dec k k') as [-> | Hne]; cbn.
    + destruct (list_eq_dec string_dec k' k') as [_ | Hn]; [reflexivity | contradiction].
    + destruct (list_eq_dec string_dec k k') as [Heq | _]; [contradiction | exact IH].
Qed.

Lemma labels_get_set_neq (k k' : list string) (v : R) (g : Gauge) :
  k' <> k -> labels_get k' (labels_set k v g) = labels_get k' g.
Proof.
  intros Hne. induction g as [| [k0 v0] g IH]; cbn.
  - destruct (list_eq_dec string_dec k' k); [contradiction | reflexivity].
  - destruct (list_eq_dec string_dec k k0) as [-> | Hk0]; cbn.
    + destruct (list_eq_dec string_dec k' k0); [contradiction | reflexivity].
    + destruct (list_eq_dec string_dec k' k0); [reflexivity | exact IH].
Qed.

Lemma publish_locations_app (l1 l2 : list (string * LocationEstimate)) (e : RuckusAPExporter) :
  publish_locations (l1 ++ l2) e = publish_locations l2 (publish_locations l1 e).
Proof.
  revert e. induction l1 as [| [m loc] l1 IH]; intros e; [reflexivity |].
  cbn [app publish_locations]. apply IH.
Qed.

Lemma publish_locations_other (post : list (string * LocationEstimate)) (e : RuckusAPExporter)
  (ms : string) :
  Forall (fun p => mac_short (fst p) <> ms) post ->
  labels_get [ms; "triangulated"%string] (client_location_x (publish_locations post e)) =
    labels_get [ms; "triangulated"%string] (client_location_x e) /\
  labels_get [ms; "triangulated"%string] (client_location_y (publish_locations post e)) =
    labels_get [ms; "triangulated"%string] (client_location_y e) /\
  labels_get [ms] (client_location_confidence (publish_locations post e)) =
    labels_get [ms] (client_location_confidence e) /\
  labels_get [ms] (client_location_error (publish_locations post e)) =
    labels_get [ms] (client_location_error e).
Proof.
  revert e. induction post as [| [m loc] post IH]; intros e Hpost; [repeat split |].
  inversion Hpost as [| ? ? Hm Hpost']; subst. cbn [fst] in Hm.
  cbn [publish_locations].
  match goal with
  | |- context [publish_locations post ?e'] => destruct (IH e' Hpost') as [Hx [Hy [Hc He]]]
  end.
  rewrite Hx, Hy, Hc, He. cbn [client_location_x client_location_y
    client_location_confidence client_location_error].
  assert (H1 : [ms] <> [mac_short m]) by (intros H; injection H as H; apply Hm; symmetry; exact H).
  assert (H2 : [ms; "triangulated"%string] <> [mac_short m; "triangulated"%string])
    by (intros H; injection H as H; apply Hm; symmetry; exact H).
  rewrite !labels_get_set_neq by assumption. repeat split.
Qed.

(** After [update_client_locations], the four location series of a client
    are keyed by the first 8 characters of its MAC ([mac[:8] + "..."]) and
    hold the estimate of the last client in the [track_clients] result with
    that prefix: the series of an earlier client sharing the prefix (for
    instance the same vendor OUI) is overwritten. *)
Theorem update_client_locations_series (current_time : R) (e : RuckusAPExporter)
  (t : WastelandTriangulator) (pre post : list (string * LocationEstimate))
  (mac : string) (loc : LocationEstimate) :
  enable_triangulation e = true -> triangulator e = Some t ->
  (2 <= length (client_signals e))%nat ->
  track_clients t (client_signals e) = Ok (pre ++ (mac, loc) :: post) ->
  Forall (fun p => mac_short (fst p) <> mac_short mac) post ->
  exists e', update_client_locations current_time e = Ok e' /\
    labels_get [mac_short mac; "triangulated"%string] (client_location_x e') = Some (loc_x loc) /\
    labels_get [mac_short mac; "triangulated"%string] (client_location_y e') = Some (loc_y loc) /\
    labels_get [mac_short mac] (client_location_confidence e') = Some (confidence loc) /\
    labels_get [mac_short mac] (client_location_error e') = Some (error_radius loc).
Proof.
  intros Hen Ht Hlen Htrack Hpost. unfold update_client_locations.
  rewrite Hen, Ht. cbn [negb].
  destruct (Nat.ltb_spec (length (client_signals e)) 2) as [Hlt | _]; [lia |].
  rewrite Htrack. cbn [bind]. eexists. split; [reflexivity |].
  cbn [client_location_x client_location_y client_location_confidence client_location_error].
  rewrite publish_locations_app. cbn [publish_locations].
  match goal with
  | |- context [publish_locations post ?e'] =>
      destruct (publish_locations_other post e' (mac_short mac) Hpost) as [Hx [Hy [Hc He]]]
  end.
  rewrite Hx, Hy, Hc, He.
  cbn [client_location_x client_location_y client_location_confidence client_location_error].
  rewrite !labels_get_set_eq. repeat split.
Qed.

Lemma update_client_locations_series_witness :
  exists loc1 loc2 e',
    track_clients one_ap_t shared_prefix_signals =
      Ok ([("aa:bb:cc:dd:ee:01"%string, loc1)] ++ [("aa:bb:cc:dd:ee:02"%string, loc2)]) /\
    mac_short "aa:bb:cc:dd:ee:01" = mac_short "aa:bb:cc:dd:ee:02" /\
    error_radius loc1 = 0.25 /\ error_radius loc2 = 0.5 /\
    update_client_locations 100
      (mkExporter true (Some one_ap_t) shared_prefix_signals [] [] [] []) = Ok e' /\
    labels_get [mac_short "aa:bb:cc:dd:ee:01"] (client_location_error e') = Some 0.5.
Proof.
  destruct shared_prefix_track as [loc1 [loc2 [H [_ [He1 [_ He2]]]]]].
  exists loc1, loc2.
  assert (H' : track_clients one_ap_t shared_prefix_signals =
               Ok ([("aa:bb:cc:dd:ee:01"%string, loc1)] ++
                   ("aa:bb:cc:dd:ee:02"%string, loc2) :: [])) by exact H.
  assert (Hms : mac_short "aa:bb:cc:dd:ee:01" = mac_short "aa:bb:cc:dd:ee:02")
    by reflexivity.
  destruct (update_client_locations_series 100
              (mkExporter true (Some one_ap_t) shared_prefix_signals [] [] [] [])
              one_ap_t [("aa:bb:cc:dd:ee:01"%string, loc1)] [] "aa:bb:cc:dd:ee:02" loc2
              eq_refl eq_refl ltac:(cbn; lia) H' (Forall_nil _))
    as [e' [He' [_ [_ [_ Her]]]]].
  exists e'. split; [exact H' |]. split; [exact Hms |].
  split; [exact He1 |]. split; [exact He2 |]. split; [exact He' |].
  rewrite Hms, Her, He2. reflexivity.
Defined.

(** * Moving every anchor by the same offset *)

Lemma py_sum_map_add {X : Type} (f : X -> R) (c : R) (l : list X) :
  py_sum (map (fun p => f p + c) l) = py_sum (map f l) + INR (length l) * c.
Proof.
  induction l as [| p l IH].
  - cbn. unfold py_sum. cbn. ring.
  - cbn [map length]. rewrite !py_sum_cons, IH, S_INR. ring.
Qed.

Lemma lin_row_shift (tx ty : R) (ref p : APCoordinates * R) :
  lin_row (shift_anchor tx ty ref) (shift_anchor tx ty p) =
  (fst (lin_row ref p),
   snd (lin_row ref p) + comp 0 (fst (lin_row ref p)) * tx
     + comp 1 (fst (lin_row ref p)) * ty).
Proof.
  destruct ref as [r dr], p as [a d]. unfold lin_row, shift_anchor. cbn.
  f_equal; [f_equal; ring | ring].
Qed.

Lemma ATb_shift (rows : list ((R * R) * R)) (tx ty : R) (i : nat) :
  ATb (map fst rows)
      (map (fun rb => snd rb + comp 0 (fst rb) * tx + comp 1 (fst rb) * ty) rows) i =
  ATb (map fst rows) (map snd rows) i
    + ATA (map fst rows) i 0 * tx + ATA (map fst rows) i 1 * ty.
Proof.
  induction rows as [| rb rows IH].
  - unfold ATb, ATA, py_sum. cbn. ring.
  - cbn [map]. rewrite !ATA_cons. unfold ATb in *. cbn [combine map].
    rewrite !py_sum_cons, IH. cbn [fst snd]. ring.
Qed.

Lemma mapM_residual_shift (x y tx ty : R) (l : list (APCoordinates * R)) :
  mapM (residual (x + tx) (y + ty)) (map (shift_anchor tx ty) l) =
  mapM (residual x y) l.
Proof.
  induction l as [| [a d] l IH]; [reflexivity |].
  cbn [map mapM]. rewrite IH. unfold residual, shift_anchor. cbn [fst snd ap_x ap_y].
  replace (x + tx - (ap_x a + tx)) with (x - ap_x a) by ring.
  replace (y + ty - (ap_y a + ty)) with (y - ap_y a) by ring.
  reflexivity.
Qed.

Lemma multiap_try_shift (l : list (APCoordinates * R)) (A : list (R * R))
  (b b' : list R) (tx ty : R) :
  (forall i, ATb A b' i = ATb A b i + ATA A i 0 * tx + ATA A i 1 * ty) ->
  trilaterate_multiap_try (map (shift_anchor tx ty) l) A b' =
  let* r := trilaterate_multiap_try l A b in
  let '(x, y, c, er) := r in Ok (x + tx, y + ty, c, er).
Proof.
  intros Hb. unfold trilaterate_multiap_try.
  destruct (Rlt_dec (Rabs (normal_det A)) singular_threshold) as [_ | Hge];
    [reflexivity |].
  assert (Hdet : normal_det A <> 0).
  { intros H0. apply Hge. rewrite H0, Rabs_R0. unfold singular_threshold. lra. }
  rewrite !(py_div_ok _ _ Hdet). cbn [bind]. rewrite !Hb.
  replace ((ATA A 1 1 * (ATb A b 0 + ATA A 0 0 * tx + ATA A 0 1 * ty)
            - ATA A 0 1 * (ATb A b 1 + ATA A 1 0 * tx + ATA A 1 1 * ty)) / normal_det A)
    with ((ATA A 1 1 * ATb A b 0 - ATA A 0 1 * ATb A b 1) / normal_det A + tx)
    by (unfold normal_det in *; field; exact Hdet).
  replace ((ATA A 0 0 * (ATb A b 1 + ATA A 1 0 * tx + ATA A 1 1 * ty)
            - ATA A 1 0 * (ATb A b 0 + ATA A 0 0 * tx + ATA A 0 1 * ty)) / normal_det A)
    with ((ATA A 0 0 * ATb A b 1 - ATA A 1 0 * ATb A b 0) / normal_det A + ty)
    by (unfold normal_det in *; field; exact Hdet).
  rewrite mapM_residual_shift.
  replace (map snd (map (shift_anchor tx ty) l)) with (map snd l)
    by (rewrite map_map; reflexivity).
  destruct (mapM _ l) as [res | e]; cbn [bind]; [| reflexivity].
  destruct (py_mean res) as [m | e]; cbn [bind]; [| reflexivity].
  destruct (py_max (map snd l)) as [mx | e]; cbn [bind]; [| reflexivity].
  destruct (py_div m mx) as [q | e]; reflexivity.
Qed.

Lemma multiap_fallback_shift (l : list (APCoordinates * R)) (tx ty : R) :
  l <> [] ->
  trilaterate_multiap_fallback (map (shift_anchor tx ty) l) =
  let* r := trilaterate_multiap_fallback l in
  let '(x, y, c, er) := r in Ok (x + tx, y + ty, c, er).
Proof.
  intros Hl.
  assert (Hl' : map (shift_anchor tx ty) l <> []).
  { destruct l; [contradiction | discriminate]. }
  assert (Hn : 0 < INR (length l)).
  { destruct l; [contradiction |]. cbn [length]. rewrite S_INR.
    pose proof (pos_INR (length l)). lra. }
  rewrite (trilaterate_multiap_fallback_ok _ Hl'), (trilaterate_multiap_fallback_ok _ Hl).
  cbn [bind]. rewrite !map_map, length_map. cbn [shift_anchor fst snd ap_x ap_y].
  rewrite (py_sum_map_add (fun p => ap_x (fst p))), (py_sum_map_add (fun p => ap_y (fst p))).
  replace ((py_sum (map (fun p => ap_x (fst p)) l) + INR (length l) * tx) / INR (length l))
    with (py_sum (map (fun p => ap_x (fst p)) l) / INR (length l) + tx) by (field; lra).
  replace ((py_sum (map (fun p => ap_y (fst p)) l) + INR (length l) * ty) / INR (length l))
    with (py_sum (map (fun p => ap_y (fst p)) l) / INR (length l) + ty) by (field; lra).
  reflexivity.
Qed.

(** Moving every anchor of the least-squares solve [_trilaterate_multiap] by
    the same offset [(tx, ty)] moves the estimate by that offset and leaves its
    confidence, anchor count and error radius unchanged; it raises exactly
    when the solve on the original anchors raises, with the same exception.
    The result does not depend on where the coordinate origin is placed. *)
Theorem trilaterate_multiap_translate (l : list (APCoordinates * R)) (tx ty : R) :
  trilaterate_multiap (map (shift_anchor tx ty) l) =
  let* loc := trilaterate_multiap l in Ok (shift_estimate tx ty loc).
Proof.
  destruct l as [| ref rest]; [reflexivity |].
  unfold trilaterate_multiap. rewrite length_map. cbn [map linear_system].
  set (rows := map (lin_row ref) rest).
  assert (Hrows : map (lin_row (shift_anchor tx ty ref)) (map (shift_anchor tx ty) rest) =
                  map (fun rb => (fst rb, snd rb + comp 0 (fst rb) * tx
                                            + comp 1 (fst rb) * ty)) rows).
  { unfold rows. rewrite !map_map. apply map_ext. intros p. apply lin_row_shift. }
  rewrite Hrows, !map_map. cbn [fst snd].
  change (map (fun x => fst x) rows) with (map fst rows).
  change (shift_anchor tx ty ref :: map (shift_anchor tx ty) rest)
    with (map (shift_anchor tx ty) (ref :: rest)).
  rewrite (multiap_try_shift (ref :: rest) (map fst rows) (map snd rows)
             _ tx ty (ATb_shift rows tx ty)).
  rewrite (multiap_fallback_shift (ref :: rest) tx ty ltac:(discriminate)).
  destruct (trilaterate_multiap_try (ref :: rest) (map fst rows) (map snd rows))
    as [[[[x y] c] er] | e]; [reflexivity |].
  destruct e; try reflexivity;
    cbn [try_except_value_zerodiv];
    destruct (trilaterate_multiap_fallback (ref :: rest)) as [[[[x y] c] er] | e'];
    reflexivity.
Qed.

Lemma trilaterate_2ap_firstn (ds : list (APCoordinates * R)) :
  trilaterate_2ap ds = trilaterate_2ap (firstn 2 ds).
Proof. unfold trilaterate_2ap. rewrite firstn_firstn. reflexivity. Qed.

(** Moving every anchor of the two-anchor solve [_trilaterate_2ap] by the same
    offset [(tx, ty)] moves the estimate by that offset and leaves its
    confidence, anchor count and error radius unchanged; with fewer than two
    anchors both raise ValueError. *)
Theorem trilaterate_2ap_translate (ds : list (APCoordinates * R)) (tx ty : R) :
  trilaterate_2ap (map (shift_anchor tx ty) ds) =
  let* loc := trilaterate_2ap ds in Ok (shift_estimate tx ty loc).
Proof.
  destruct ds as [| [a1 d1] [| [a2 d2] ds]]; [reflexivity | reflexivity |].
  rewrite trilaterate_2ap_firstn, (trilaterate_2ap_firstn (_ :: _ :: ds)).
  cbn [map firstn shift_anchor fst snd].
  unfold shift_anchor. cbn [fst snd].
  set (a1' := mkAP (ap_x a1 + tx) (ap_y a1 + ty) (ap_z a1) (ap_label a1)).
  set (a2' := mkAP (ap_x a2 + tx) (ap_y a2 + ty) (ap_z a2) (ap_label a2)).
  assert (Hdx : ap_x a2' - ap_x a1' = ap_x a2 - ap_x a1) by (cbn; ring).
  assert (Hdy : ap_y a2' - ap_y a1' = ap_y a2 - ap_y a1) by (cbn; ring).
  destruct (trilaterate_2ap_cases a1' d1 a2' d2) as [[H0' E'] | [H0' E']];
  destruct (trilaterate_2ap_cases a1 d1 a2 d2) as [[H0 E] | [H0 E]];
    rewrite E', E; cbn [bind]; rewrite ?Hdx, ?Hdy in *; try contradiction.
  - reflexivity.
  - unfold baseline_projection, shift_estimate. cbn [fst snd loc_x loc_y confidence
      num_aps error_radius].
    rewrite Hdx, Hdy. cbn [ap_x ap_y a1']. f_equal. f_equal; ring.
Qed.
